(** * Interactive Learning - Pro Site: the modal focus trap, the scroll spy,
      the section navigator and the contact form

    A shallow embedding of [interactive_learning_pro_site_refactor_a_11_y_perf.jsx].
    The component code (the [Modal] effect with its [onKey] listener and its
    cleanup, [useContactForm] with [validate] and [submit], [jump] and the
    intersection callback of [InteractiveLearningPro]) is written in a small
    state-and-exception monad over a record [Page] that holds the browser
    document, the React state of the page and the trace of calls made on host
    objects.  What the browser and React do around that code (what [focus()]
    does, sequential focus navigation, when effects and cleanups run) is the
    host model; every such definition says so in its comment. *)

From Stdlib Require Import ZArith NArith Ascii String List Lia.
From stdpp Require Import base decidable option list gmap strings.

Local Open Scope Z_scope.

(** ** JavaScript strings, [trim], truthiness and regular expressions *)

Module Js.

(** A JavaScript string is a sequence of UTF-16 code units. *)
Definition jsstring := list N.

(** A string literal of the source, as code units. *)
Definition u (s : string) : jsstring :=
  List.map N_of_ascii (list_ascii_of_string s).

(** ECMAScript WhiteSpace and LineTerminator code points: what
    [String.prototype.trim] strips and what [\s] matches. *)
Definition isWhiteSpace (c : N) : bool :=
  (bool_decide (c ∈ [0x9; 0xA; 0xB; 0xC; 0xD; 0x20; 0xA0; 0x1680; 0x2028;
                     0x2029; 0x202F; 0x205F; 0x3000; 0xFEFF]%N)
   || ((0x2000 <=? c)%N && (c <=? 0x200A)%N))%bool.

Fixpoint trimStart (s : jsstring) : jsstring :=
  match s with
  | c :: s' => if isWhiteSpace c then trimStart s' else s
  | [] => []
  end.

Definition trimEnd (s : jsstring) : jsstring := rev (trimStart (rev s)).

Definition trim (s : jsstring) : jsstring := trimEnd (trimStart s).

(** ToBoolean on a string: the empty string is the only falsy one. *)
Definition truthy (s : jsstring) : bool :=
  match s with [] => false | _ :: _ => true end.

(** Regular expressions over code units, matched by derivatives. *)
Inductive Re :=
| Void
| Eps
| Cls (accept : N → bool)
| Seq (r s : Re)
| Alt (r s : Re)
| Star (r : Re).

Definition Chr (c : N) : Re := Cls (N.eqb c).
Definition Plus (r : Re) : Re := Seq r (Star r).

Fixpoint nullable (r : Re) : bool :=
  match r with
  | Void => false
  | Eps => true
  | Cls _ => false
  | Seq r s => nullable r && nullable s
  | Alt r s => nullable r || nullable s
  | Star _ => true
  end.

Fixpoint deriv (c : N) (r : Re) : Re :=
  match r with
  | Void => Void
  | Eps => Void
  | Cls f => if f c then Eps else Void
  | Seq r s =>
      if nullable r then Alt (Seq (deriv c r) s) (deriv c s)
      else Seq (deriv c r) s
  | Alt r s => Alt (deriv c r) (deriv c s)
  | Star r => Seq (deriv c r) (Star r)
  end.

(** [/^r$/.test(s)]: the whole string is in the language of [r]. *)
Definition test (r : Re) (s : jsstring) : bool :=
  nullable (fold_left (λ r c, deriv c r) s r).

End Js.

Import Js.

(** ** The document *)

(** Where a node comes from; nodes of different origin are different nodes. *)
Inductive NodeId :=
| InPage (n : nat)       (* rendered by the page outside the modal *)
| InModal (n : nat)      (* rendered by [Modal] itself *)
| InChildren (n : nat).  (* rendered from the [children] of [Modal] *)

Record Element := {
  uid : NodeId;                   (* identity of the node *)
  tagName : string;               (* lower-case tag name *)
  idAttr : string;                (* [el.id]; empty when there is no id *)
  tabindexAttr : option string;   (* the tabindex attribute as written *)
  canFocus : bool;                (* host: [focus()] can move focus here *)
  tabStop : bool;                 (* host: sequential navigation stops here *)
}.

(** The [id] of an element that has no id attribute: the empty string. *)
Definition noId : string := EmptyString.

Global Instance NodeId_eq_dec : EqDecision NodeId.
Proof. solve_decision. Defined.

Global Instance Element_eq_dec : EqDecision Element.
Proof. solve_decision. Defined.

(** The compound selectors of a selector list, as far as the source uses them. *)
Inductive Simple :=
| Tag (t : string)              (* [t] *)
| HasTabindex                   (* [[tabindex]] *)
| TabindexIs (v : string)       (* [[tabindex="v"]] *)
| Not (s : Simple).             (* [:not(s)] *)

Fixpoint matchesSimple (s : Simple) (e : Element) : bool :=
  match s with
  | Tag t => bool_decide (tagName e = t)
  | HasTabindex => bool_decide (is_Some (tabindexAttr e))
  | TabindexIs v => bool_decide (tabindexAttr e = Some v)
  | Not s' => negb (matchesSimple s' e)
  end.

(** A selector list: a disjunction of compound selectors, each a conjunction. *)
Definition Selector := list (list Simple).

Definition matchesSelector (sel : Selector) (e : Element) : bool :=
  existsb (λ compound, forallb (λ s, matchesSimple s e) compound) sel.

(** [root.querySelectorAll(sel)] on the descendants of [root] in document
    order: the matching ones, in that order. *)
Definition querySelectorAll (sel : Selector) (descendants : list Element)
  : list Element :=
  List.filter (matchesSelector sel) descendants.

(** ** Page state *)

(** The state object of [useContactForm]. *)
Record Values := {
  name : jsstring;
  email : jsstring;
  organization : jsstring;
  role : jsstring;
  interests : list jsstring;
  message : jsstring;
  website : jsstring;             (* the honeypot *)
}.

(** What a keydown listener reads from the event. *)
Record KeyEvent := { key : string; shiftKey : bool }.

(** An IntersectionObserverEntry, as far as the callback reads it. *)
Record Entry := { target : Element; isIntersecting : bool }.

(** The closure of one run of the [Modal] effect: the two constants its
    listener and its cleanup refer to.  [None] is null or undefined. *)
Record Trap := {
  prev : option Element;
  focusable : option (list Element);
}.

(** Calls made on host objects and on props, in the order they are made. *)
Inductive Effect :=
| Focus (e : Element)
| PreventDefault
| AddKeydownListener
| RemoveKeydownListener
| OnClose
| ScrollIntoView (e : Element) (behavior block : string)
| Alert (msg : string)
| ConsoleLog (label : string) (v : Values)
| Observe (e : Element).

Global Instance Values_eq_dec : EqDecision Values.
Proof. solve_decision. Defined.

Global Instance Effect_eq_dec : EqDecision Effect.
Proof. solve_decision. Defined.

Global Instance Trap_eq_dec : EqDecision Trap.
Proof. solve_decision. Defined.

Record Page := {
  (* the browser document *)
  connected : list Element;        (* its elements, in document order *)
  body : option Element;           (* document.body *)
  activeElement : option Element;  (* document.activeElement *)
  (* React state of InteractiveLearningPro and of useContactForm *)
  active : string;
  fishboneOpen : bool;
  values : Values;
  errors : gmap string string;
  (* effects that are installed *)
  modalEffect : option Trap;       (* the keydown listener on the document *)
  observed : list Element;         (* targets of the IntersectionObserver *)
  (* the event being dispatched, the pending render, the calls made *)
  defaultPrevented : bool;
  renderPending : bool;
  trace : list Effect;
}.

(** Field updates. *)
Definition with_connected (v : list Element) (p : Page) : Page :=
  {| connected := v; body := body p; activeElement := activeElement p;
     active := active p; fishboneOpen := fishboneOpen p; values := values p;
     errors := errors p; modalEffect := modalEffect p; observed := observed p;
     defaultPrevented := defaultPrevented p; renderPending := renderPending p;
     trace := trace p |}.

Definition with_activeElement (v : option Element) (p : Page) : Page :=
  {| connected := connected p; body := body p; activeElement := v; active := active p;
     fishboneOpen := fishboneOpen p; values := values p; errors := errors p;
     modalEffect := modalEffect p; observed := observed p;
     defaultPrevented := defaultPrevented p; renderPending := renderPending p;
     trace := trace p |}.

Definition with_active (v : string) (p : Page) : Page :=
  {| connected := connected p; body := body p; activeElement := activeElement p;
     active := v; fishboneOpen := fishboneOpen p; values := values p;
     errors := errors p; modalEffect := modalEffect p; observed := observed p;
     defaultPrevented := defaultPrevented p; renderPending := renderPending p;
     trace := trace p |}.

Definition with_fishboneOpen (v : bool) (p : Page) : Page :=
  {| connected := connected p; body := body p; activeElement := activeElement p;
     active := active p; fishboneOpen := v; values := values p; errors := errors p;
     modalEffect := modalEffect p; observed := observed p;
     defaultPrevented := defaultPrevented p; renderPending := renderPending p;
     trace := trace p |}.

Definition with_values (v : Values) (p : Page) : Page :=
  {| connected := connected p; body := body p; activeElement := activeElement p;
     active := active p; fishboneOpen := fishboneOpen p; values := v;
     errors := errors p; modalEffect := modalEffect p; observed := observed p;
     defaultPrevented := defaultPrevented p; renderPending := renderPending p;
     trace := trace p |}.

Definition with_errors (v : gmap string string) (p : Page) : Page :=
  {| connected := connected p; body := body p; activeElement := activeElement p;
     active := active p; fishboneOpen := fishboneOpen p; values := values p;
     errors := v; modalEffect := modalEffect p; observed := observed p;
     defaultPrevented := defaultPrevented p; renderPending := renderPending p;
     trace := trace p |}.

Definition with_modalEffect (v : option Trap) (p : Page) : Page :=
  {| connected := connected p; body := body p; activeElement := activeElement p;
     active := active p; fishboneOpen := fishboneOpen p; values := values p;
     errors := errors p; modalEffect := v; observed := observed p;
     defaultPrevented := defaultPrevented p; renderPending := renderPending p;
     trace := trace p |}.

Definition with_observed (v : list Element) (p : Page) : Page :=
  {| connected := connected p; body := body p; activeElement := activeElement p;
     active := active p; fishboneOpen := fishboneOpen p; values := values p;
     errors := errors p; modalEffect := modalEffect p; observed := v;
     defaultPrevented := defaultPrevented p; renderPending := renderPending p;
     trace := trace p |}.

Definition with_defaultPrevented (v : bool) (p : Page) : Page :=
  {| connected := connected p; body := body p; activeElement := activeElement p;
     active := active p; fishboneOpen := fishboneOpen p; values := values p;
     errors := errors p; modalEffect := modalEffect p; observed := observed p;
     defaultPrevented := v; renderPending := renderPending p; trace := trace p |}.

Definition with_renderPending (v : bool) (p : Page) : Page :=
  {| connected := connected p; body := body p; activeElement := activeElement p;
     active := active p; fishboneOpen := fishboneOpen p; values := values p;
     errors := errors p; modalEffect := modalEffect p; observed := observed p;
     defaultPrevented := defaultPrevented p; renderPending := v; trace := trace p |}.

Definition with_trace (v : list Effect) (p : Page) : Page :=
  {| connected := connected p; body := body p; activeElement := activeElement p;
     active := active p; fishboneOpen := fishboneOpen p; values := values p;
     errors := errors p; modalEffect := modalEffect p; observed := observed p;
     defaultPrevented := defaultPrevented p; renderPending := renderPending p;
     trace := v |}.

(** ** The monad of handlers: state and uncaught exceptions *)

Inductive Outcome (A : Type) :=
| Normal (a : A)
| Throw (err : string).
Arguments Normal {A} a.
Arguments Throw {A} err.

Definition M (A : Type) : Type := Page → Outcome A * Page.

Global Instance M_ret : MRet M := λ A a p, (Normal a, p).

Global Instance M_bind : MBind M := λ A B f m p,
  match m p with
  | (Normal a, p') => f a p'
  | (Throw err, p') => (Throw err, p')
  end.

Definition get : M Page := λ p, (Normal p, p).
Definition modify (f : Page → Page) : M unit := λ p, (Normal tt, f p).
Definition throw {A} (err : string) : M A := λ p, (Throw err, p).
Definition call (e : Effect) : M unit := modify (λ p, with_trace (trace p ++ [e]) p).

(** The state a computation ends in, and whether it ended normally. *)
Definition exec {A} (m : M A) (p : Page) : Page := (m p).2.
Definition returns {A} (m : M A) (p : Page) : Prop := ∃ a, (m p).1 = Normal a.

(** [if (c) m] *)
Definition when (c : bool) (m : M unit) : M unit := if c then m else mret tt.

(** [o.method(...)] where [o] may be null or undefined: a TypeError then. *)
Definition method {A} (o : option Element) (m : Element → M A) : M A :=
  match o with
  | Some e => m e
  | None => throw "TypeError"
  end.

(** [o && o.method(...)] and [o?.method(...)] as statements. *)
Definition guarded (o : option Element) (m : Element → M unit) : M unit :=
  match o with
  | Some e => m e
  | None => mret tt
  end.

(** [l.forEach(f)] *)
Fixpoint forEach {A} (l : list A) (f : A → M unit) : M unit :=
  match l with
  | [] => mret tt
  | x :: l' => f x;; forEach l' f
  end.

(** [l.length], [l[k]] and [l.indexOf(x)] with JavaScript numbers. *)
Definition len {A} (l : list A) : Z := Z.of_nat (length l).

Definition item {A} (l : list A) (k : Z) : option A :=
  if k <? 0 then None else l !! Z.to_nat k.

Fixpoint indexFrom (l : list Element) (x : Element) (i : Z) : Z :=
  match l with
  | [] => -1
  | y :: l' => if decide (y = x) then i else indexFrom l' x (i + 1)
  end.

Definition indexOf (l : list Element) (x : option Element) : Z :=
  match x with
  | Some e => indexFrom l e 0
  | None => -1
  end.

(** ** Host operations *)

(** host: [e.focus()].  The call is made whatever [e] is; focus moves only
    when [e] is in the document and can take focus. *)
Definition focus (e : Element) : M unit :=
  call (Focus e);;
  modify (λ p, with_activeElement
                 (if bool_decide (e ∈ connected p) && canFocus e
                  then Some e else activeElement p) p).

(** host: [document.addEventListener("keydown", onKey)], [onKey] being the
    listener of the effect run with the closure [t].  The page adds no other
    keydown listener, so the document has one place for it: [modalEffect].
    React holds the cleanup of the same run, so this is also where [commit]
    finds the cleanup it has to run. *)
Definition addKeydownListener (t : Trap) : M unit :=
  call AddKeydownListener;;
  modify (with_modalEffect (Some t)).

(** host: [document.removeEventListener("keydown", onKey)]: that listener
    hears no later event; a listener that is not the one given stays. *)
Definition removeKeydownListener (t : Trap) : M unit :=
  call RemoveKeydownListener;;
  modify (λ p, with_modalEffect
                 (if bool_decide (modalEffect p = Some t)
                  then None else modalEffect p) p).

(** host: [evt.preventDefault()]. *)
Definition preventDefault : M unit :=
  call PreventDefault;; modify (with_defaultPrevented true).

(** host: the first element of a document with the id [i], if any; no
    element has the empty id. *)
Definition elementWithId (i : string) (doc : list Element) : option Element :=
  if bool_decide (i = noId) then None
  else List.find (λ e, bool_decide (idAttr e = i)) doc.

(** host: [document.getElementById(i)]. *)
Definition getElementById (i : string) : M (option Element) :=
  p ← get;
  mret (elementWithId i (connected p)).

(** host: [e.scrollIntoView({ behavior, block })]: requests the scroll. *)
Definition scrollIntoView (behavior block : string) (e : Element) : M unit :=
  call (ScrollIntoView e behavior block).

(** host: [obs.observe(e)]. *)
Definition observe (e : Element) : M unit :=
  call (Observe e);;
  modify (λ p, if bool_decide (e ∈ observed p) then p
               else with_observed (observed p ++ [e]) p).

(** host: nodes enter the document at the end of the page root. *)
Definition insertNodes (nodes : list Element) : M unit :=
  modify (λ p, with_connected (connected p ++ nodes) p).

(** host: nodes leave the document; a focused node that leaves gives focus
    back to the body. *)
Definition removeNodes (nodes : list Element) : M unit :=
  modify (λ p,
    with_connected
      (List.filter (λ e, negb (bool_decide (e ∈ nodes))) (connected p))
      (with_activeElement
         match activeElement p with
         | Some a => if bool_decide (a ∈ nodes) then body p else Some a
         | None => None
         end p)).

(** host: the default action of Tab and Shift+Tab, for a document in which
    no element has a positive tabindex: the tab order is the document order.
    Focus moves to the next (previous) tab stop and goes round at the ends.
    With focus on no tab stop a browser goes on from the place it navigated
    from last, which the page state does not record: the model enters at the
    first (last) tab stop then. *)
Definition sequentialNavigation (backward : bool) : M unit :=
  modify (λ p,
    let order := List.filter tabStop (connected p) in
    let i := indexOf order (activeElement p) in
    let next :=
      if backward
      then (if i <=? 0 then last order else item order (i - 1))
      else (if i =? len order - 1 then head order else item order (i + 1)) in
    with_activeElement
      match next with
      | Some e => Some e
      | None => activeElement p
      end p).

(** host: a React state setter.  Setting the value the state already has
    schedules no render. *)
Definition setActive (v : string) : M unit :=
  modify (λ p, if bool_decide (active p = v) then p
               else with_renderPending true (with_active v p)).

Definition setFishboneOpen (v : bool) : M unit :=
  modify (λ p, if bool_decide (fishboneOpen p = v) then p
               else with_renderPending true (with_fishboneOpen v p)).

(** A fresh object is never the one the state holds: always a render. *)
Definition setErrors (e : gmap string string) : M unit :=
  modify (λ p, with_renderPending true (with_errors e p)).

Definition set (f : Values → Values) : M unit :=
  modify (λ p, with_renderPending true (with_values (f (values p)) p)).

(** ** [Modal] *)

Module Modal.

(** The elements [Modal] renders around its children when open. *)
Definition node (n : nat) (tag : string) (i : string) (takesFocus : bool) : Element :=
  {| uid := InModal n; tagName := tag; idAttr := i; tabindexAttr := None;
     canFocus := takesFocus; tabStop := takesFocus |}.

Definition overlay : Element := node 0 "div" noId false.      (* role=dialog *)
Definition backdrop : Element := node 1 "div" noId false.     (* onClick={onClose} *)
Definition centering : Element := node 2 "div" noId false.
Definition dialog : Element := node 3 "div" noId false.       (* ref={dialogRef} *)
Definition header : Element := node 4 "div" noId false.
Definition heading : Element := node 5 "h3" "modal-title" false.
Definition closeButton : Element := node 6 "button" noId true. (* aria-label=Close *)
Definition closeIcon : Element := node 7 "svg" noId false.
Definition content : Element := node 8 "div" noId false.      (* holds {children} *)

(** 'a,button,textarea,input,select,[tabindex]:not([tabindex=-1])' *)
Definition focusableSelector : Selector :=
  [ [Tag "a"]; [Tag "button"]; [Tag "textarea"]; [Tag "input"]; [Tag "select"];
    [HasTabindex; Not (TabindexIs "-1")] ].

Section WithChildren.

Variable children : list Element.

(** The descendants of the [dialogRef] element, in document order. *)
Definition dialogDescendants : list Element :=
  [header; heading; closeButton; closeIcon; content] ++ children.

(** Everything the open modal puts in the document. *)
Definition rendered : list Element :=
  [overlay; backdrop; centering; dialog] ++ dialogDescendants.

(** [dialogRef.current], given by the descendants of the element it points
    to; null while the dialog element is not in the document. *)
Definition dialogRef_current : M (option (list Element)) :=
  p ← get;
  mret (if bool_decide (dialog ∈ connected p) then Some dialogDescendants else None).

(** The body of the effect, run with the [open] prop of the render.  The
    listener it adds and the cleanup it returns share the closure made of
    [prev] and [focusable]; it adds nothing when it returns early. *)
Definition effect (open : bool) : M unit :=
  if negb open then mret tt else
  p ← get;
  let prev := activeElement p in
  current ← dialogRef_current;
  let focusable := querySelectorAll focusableSelector <$> current in
  let first := focusable ≫= head in
  guarded first focus;;
  addKeydownListener {| prev := prev; focusable := focusable |}.

(** [focusable && focusable.length] as a condition. *)
Definition nonEmpty (focusable : option (list Element)) : bool :=
  match focusable with
  | Some l => negb (len l =? 0)
  | None => false
  end.

(** The keydown listener. *)
Definition onKey (t : Trap) (onClose : M unit) (e : KeyEvent) : M unit :=
  when (bool_decide (key e = "Escape")) onClose;;
  when (bool_decide (key e = "Tab") && nonEmpty (focusable t)) (
    let list := default [] (focusable t) in
    p ← get;
    let idx := indexOf list (activeElement p) in
    if shiftKey e && (idx <=? 0) then
      preventDefault;; method (item list (len list - 1)) focus
    else if negb (shiftKey e) && (idx =? len list - 1) then
      preventDefault;; method (item list 0) focus
    else mret tt).

(** The cleanup the effect returns. *)
Definition cleanup (t : Trap) : M unit :=
  removeKeydownListener t;;
  guarded (prev t) focus.

End WithChildren.

End Modal.

(** ** [useContactForm] *)

(** Not white space and not an at sign: the class of the three runs. *)
Definition notSpaceOrAt (c : N) : bool := negb (isWhiteSpace c || (c =? 64)%N).

(** The pattern between the anchors: a run, an at sign, a run, a dot, a run. *)
Definition emailRx : Re :=
  Seq (Plus (Cls notSpaceOrAt))
   (Seq (Chr 64)
     (Seq (Plus (Cls notSpaceOrAt))
       (Seq (Chr 46) (Plus (Cls notSpaceOrAt))))).

(** [Object.keys(o)], in some order. *)
Definition Object_keys (o : gmap string string) : list string := (map_to_list o).*1.

Definition validate : M bool :=
  p ← get;
  let values := values p in
  let e : gmap string string := ∅ in
  let e := if negb (truthy (trim (name values)))
           then <["name" := "Please enter your name."]> e else e in
  let e := if negb (truthy (trim (email values))) || negb (test emailRx (email values))
           then <["email" := "Enter a valid email."]> e else e in
  let e := if negb (truthy (trim (organization values)))
           then <["organization" := "Organization is required."]> e else e in
  let e := if truthy (website values)
           then <["website" := "Spam detected."]> e else e in
  setErrors e;;
  mret (len (Object_keys e) =? 0).

Definition acknowledgment : string :=
  "Thanks! This is a demo. In production this would post to your backend or Formspree.".

Definition submit : M unit :=
  preventDefault;;
  ok ← validate;
  if negb ok then mret tt else
  call (Alert acknowledgment);;
  p ← get;
  call (ConsoleLog "Form:" (values p)).

(** The initial state of the form. *)
Definition initialValues : Values :=
  {| name := []; email := []; organization := []; role := []; interests := [];
     message := []; website := [] |}.

(** ** [InteractiveLearningPro] *)

Definition sections : list string :=
  ["home"; "activities"; "methodology"; "solutions"; "about"; "contact"].

Definition jump (i : string) : M unit :=
  el ← getElementById i;
  guarded el (scrollIntoView "smooth" "start").

(** The callback given to the IntersectionObserver. *)
Definition observerCallback (entries : list Entry) : M unit :=
  forEach entries (λ e, when (isIntersecting e) (setActive (idAttr (target e)))).

(** The body of the mount effect after the observer is created. *)
Definition observeSections : M unit :=
  forEach sections (λ i, el ← getElementById i; guarded el observe).

(** [onClose] as the page passes it to [Modal]. *)
Definition onClose : M unit :=
  call OnClose;; setFishboneOpen false.

(** The controlled inputs of the form. *)
Inductive Field := FWebsite | FName | FEmail | FOrganization | FRole | FMessage.

(** [{...v, field: value}] *)
Definition withField (f : Field) (x : jsstring) (v : Values) : Values :=
  match f with
  | FWebsite => {| name := name v; email := email v; organization := organization v;
                   role := role v; interests := interests v; message := message v;
                   website := x |}
  | FName => {| name := x; email := email v; organization := organization v;
                role := role v; interests := interests v; message := message v;
                website := website v |}
  | FEmail => {| name := name v; email := x; organization := organization v;
                 role := role v; interests := interests v; message := message v;
                 website := website v |}
  | FOrganization => {| name := name v; email := email v; organization := x;
                        role := role v; interests := interests v; message := message v;
                        website := website v |}
  | FRole => {| name := name v; email := email v; organization := organization v;
                role := x; interests := interests v; message := message v;
                website := website v |}
  | FMessage => {| name := name v; email := email v; organization := organization v;
                   role := role v; interests := interests v; message := x;
                   website := website v |}
  end.

(** The events the page has handlers for. *)
Inductive Event :=
| ClickTryLiveDemo                  (* onDemo of the Fishbone card *)
| ClickClose                        (* the Close button of the modal *)
| ClickBackdrop                     (* the backdrop of the modal *)
| KeyDown (e : KeyEvent)            (* keydown reaching the document *)
| Intersect (entries : list Entry)  (* the observer reports entries *)
| Navigate (i : string)             (* a control wired to jump *)
| Change (f : Field) (x : jsstring) (* onChange of an input; x is its value *)
| Submit.                           (* onSubmit of the form *)

Section Page.

(** What the page passes to [Modal] as children, as elements. *)
Variable children : list Element.

(** The handlers.  A keydown event reaches the listener that is registered
    on the document; the modal's controls exist while its effect is
    installed. *)
Definition handle (ev : Event) : M unit :=
  p ← get;
  match ev with
  | ClickTryLiveDemo => setFishboneOpen true
  | ClickClose | ClickBackdrop =>
      when (bool_decide (is_Some (modalEffect p))) onClose
  | KeyDown e =>
      match modalEffect p with
      | Some t => Modal.onKey t onClose e
      | None => mret tt
      end
  | Intersect entries => observerCallback entries
  | Navigate i => jump i
  | Change f x => set (withField f x)
  | Submit => submit
  end.

(** host: the default action of the event, unless a handler prevented it. *)
Definition defaultAction (ev : Event) : M unit :=
  p ← get;
  match ev with
  | KeyDown e =>
      when (negb (defaultPrevented p) && bool_decide (key e = "Tab"))
           (sequentialNavigation (shiftKey e))
  | _ => mret tt
  end.

(** host: React renders and commits after the handlers.  [Modal] returns null
    unless [open]; its effect depends on [open, onClose], and [onClose] is a
    new function in every render of the page, so every render of the page
    runs the cleanup of the installed effect and then the effect again.  The
    cleanup runs after the document has been updated. *)
Definition commit : M unit :=
  p ← get;
  (if renderPending p then
     match modalEffect p with
     | Some t =>
         when (negb (fishboneOpen p)) (removeNodes (Modal.rendered children));;
         Modal.cleanup t
     | None =>
         when (fishboneOpen p) (insertNodes (Modal.rendered children))
     end;;
     Modal.effect children (fishboneOpen p)
   else mret tt);;
  modify (with_renderPending false).

(** One event, from dispatch to the committed render. *)
Definition dispatch (ev : Event) : M unit :=
  modify (with_defaultPrevented false);;
  handle ev;;
  defaultAction ev;;
  commit.

(** A sequence of events, each dispatched in the state the previous one
    ended in. *)
Definition run (evs : list Event) (p : Page) : Page :=
  fold_left (λ q ev, exec (dispatch ev) q) evs p.

(** The page after its first render in a document with the elements [doc]:
    the state hooks have their initial values, the modal is closed and the
    mount effect has put the sections that exist under observation. *)
Definition mount (doc : list Element) (bodyElement : option Element) : Page :=
  exec observeSections
    {| connected := doc; body := bodyElement; activeElement := bodyElement;
       active := "home"; fishboneOpen := false;
       values := initialValues; errors := ∅;
       modalEffect := None; observed := [];
       defaultPrevented := false; renderPending := false; trace := [] |}.

End Page.

(** The iframe the page puts in the modal. *)
Definition fishboneFrame : Element :=
  {| uid := InChildren 0; tagName := "iframe"; idAttr := noId; tabindexAttr := None;
     canFocus := true; tabStop := true |}.

(** ** Derived notions used in the statements *)

(** The errors object [validate] builds from the form values. *)
Definition fieldErrors (v : Values) : gmap string string :=
  let e : gmap string string := ∅ in
  let e := if negb (truthy (trim (name v)))
           then <["name" := "Please enter your name."]> e else e in
  let e := if negb (truthy (trim (email v))) || negb (test emailRx (email v))
           then <["email" := "Enter a valid email."]> e else e in
  let e := if negb (truthy (trim (organization v)))
           then <["organization" := "Organization is required."]> e else e in
  let e := if truthy (website v)
           then <["website" := "Spam detected."]> e else e in
  e.

(** The calls made on the way from [p] to [p']. *)
Definition newCalls (p p' : Page) : list Effect :=
  drop (length (trace p)) (trace p').

Definition tabKey (shift : bool) : Event := KeyDown {| key := "Tab"; shiftKey := shift |}.
Definition escapeKey (shift : bool) : Event := KeyDown {| key := "Escape"; shiftKey := shift |}.

(** The three ways the user closes the modal. *)
Inductive closes : Event → Prop :=
| closes_button : closes ClickClose
| closes_backdrop : closes ClickBackdrop
| closes_escape shift : closes (escapeKey shift).

(** The modal is open in [p] with the effect closure [t] installed, and no
    render is pending: the state between two events. *)
Definition openWith (t : Trap) (p : Page) : Prop :=
  fishboneOpen p = true ∧ modalEffect p = Some t ∧ renderPending p = false.

(** The modal is closed in [p] and no render is pending. *)
Definition closed (p : Page) : Prop :=
  fishboneOpen p = false ∧ modalEffect p = None ∧ renderPending p = false.

(** ** A sample document *)

Definition pageNode (n : nat) (tag i : string) (takesFocus : bool) : Element :=
  {| uid := InPage n; tagName := tag; idAttr := i; tabindexAttr := None;
     canFocus := takesFocus; tabStop := takesFocus |}.

Definition pageBody : Element := pageNode 0 "body" noId false.

(** The Try Live Demo button of the Fishbone card. *)
Definition demoButton : Element := pageNode 3 "button" noId true.

(** The landmarks of the page and some of its controls, in document order. *)
Definition sampleDocument : list Element :=
  [ pageBody;
    pageNode 1 "header" "home" false;
    pageNode 2 "section" "activities" false;
    demoButton;
    pageNode 4 "section" "methodology" false;
    pageNode 5 "section" "solutions" false;
    pageNode 6 "section" "about" false;
    pageNode 7 "section" "contact" false;
    pageNode 8 "input" "name" true;
    pageNode 9 "input" "email" true;
    pageNode 10 "input" "org" true;
    pageNode 11 "button" noId true ].

(** The page after mounting in the sample document. *)
Definition samplePage : Page := mount sampleDocument (Some pageBody).

(** The sample page with focus on the demo button. *)
Definition focusedPage : Page := with_activeElement (Some demoButton) samplePage.

(** The page with the fishbone modal open from the demo button. *)
Definition openPage : Page := exec (dispatch [fishboneFrame] ClickTryLiveDemo) focusedPage.

(** The open page after the demo button has left the document. *)
Definition detachedPage : Page :=
  with_connected (List.filter (λ e, negb (bool_decide (e = demoButton))) (connected openPage))
                 openPage.

(** A modal whose children are two buttons, opened from the demo button. *)
Definition childButton (n : nat) : Element :=
  {| uid := InChildren n; tagName := "button"; idAttr := noId; tabindexAttr := None;
     canFocus := true; tabStop := true |}.

Definition twoButtons : list Element := [childButton 1; childButton 2].

Definition buttonsPage : Page := exec (dispatch twoButtons ClickTryLiveDemo) focusedPage.

(** The open page with focus on no element of the modal. *)
Definition strayPage : Page := with_activeElement (Some pageBody) openPage.

(** A button with the disabled attribute: the selector matches it, focus
    does not go to it. *)
Definition disabledButton (n : nat) : Element :=
  {| uid := InChildren n; tagName := "button"; idAttr := noId; tabindexAttr := None;
     canFocus := false; tabStop := false |}.

(** A modal whose only child is a disabled button, opened from the demo
    button. *)
Definition disabledPage : Page :=
  exec (dispatch [disabledButton 1] ClickTryLiveDemo) focusedPage.

(** An iframe among the children: a tab stop the selector does not match. *)
Definition childFrame (n : nat) : Element :=
  {| uid := InChildren n; tagName := "iframe"; idAttr := noId; tabindexAttr := None;
     canFocus := true; tabStop := true |}.

(** A modal whose children are a button, an iframe and a button. *)
Definition framedButtons : list Element := [childButton 1; childFrame 2; childButton 3].

Definition framedPage : Page := exec (dispatch framedButtons ClickTryLiveDemo) focusedPage.

(** The observer reports that the activities section is in the band. *)
Definition activitiesReport : Event :=
  Intersect [ {| target := pageNode 2 "section" "activities" false;
                 isIntersecting := true |} ].

(** Form values: no name, a bad address, an organization of one space. *)
Definition blankOrganization : Values :=
  {| name := []; email := u "not-an-email"; organization := u " "; role := [];
     interests := []; message := []; website := [] |}.

(** Form values: no name, a bad address, an organization. *)
Definition twoMistakes : Values :=
  {| name := []; email := u "not-an-email"; organization := u "UWS"; role := [];
     interests := []; message := []; website := [] |}.

(** Form values that pass every check. *)
Definition validValues : Values :=
  {| name := u "Ada"; email := u "ada@uws.ac.uk"; organization := u "UWS"; role := [];
     interests := []; message := []; website := [] |}.

(** Valid values with the honeypot filled in. *)
Definition spamValues : Values := withField FWebsite (u "http://spam.example") validValues.

(** ** Transitions of the modal, written out *)

(** The page right after the modal has opened from the closed page [q]. *)
Definition opened (children : list Element) (q : Page) : Page :=
  {| connected := connected q ++ Modal.rendered children;
     body := body q;
     activeElement := Some Modal.closeButton;
     active := active q;
     fishboneOpen := true;
     values := values q;
     errors := errors q;
     modalEffect :=
       Some {| prev := activeElement q;
               focusable := Some (Modal.closeButton ::
                                  querySelectorAll Modal.focusableSelector children) |};
     observed := observed q;
     defaultPrevented := false;
     renderPending := false;
     trace := trace q ++ [Focus Modal.closeButton; AddKeydownListener] |}.

(** Where focus is once the nodes of the modal have left the document. *)
Definition focusAfterRemoval (children : list Element) (p : Page) : option Element :=
  match activeElement p with
  | Some a => if bool_decide (a ∈ Modal.rendered children) then body p else Some a
  | None => None
  end.

(** The element the effect records when the page renders in [p] with the
    modal open: what has focus once the cleanup of the installed closure [t]
    has called [focus] on the element that closure holds. *)
Definition recaptured (t : Trap) (p : Page) : option Element :=
  match prev t with
  | Some x => if bool_decide (x ∈ connected p) && canFocus x then Some x
              else activeElement p
  | None => activeElement p
  end.

(** The page after the open modal of [p], with closure [t], has closed. *)
Definition closedFrom (children : list Element) (t : Trap) (p : Page) : Page :=
  let doc := List.filter (λ e, negb (bool_decide (e ∈ Modal.rendered children)))
                         (connected p) in
  {| connected := doc;
     body := body p;
     activeElement :=
       match prev t with
       | Some e => if bool_decide (e ∈ doc) && canFocus e then Some e
                   else focusAfterRemoval children p
       | None => focusAfterRemoval children p
       end;
     active := active p;
     fishboneOpen := false;
     values := values p;
     errors := errors p;
     modalEffect := None;
     observed := observed p;
     defaultPrevented := false;
     renderPending := false;
     trace := trace p ++ [OnClose; RemoveKeydownListener]
                      ++ match prev t with Some e => [Focus e] | None => [] end |}.

(** Whether the listener takes the key press: Shift+Tab with focus on the
    first element or outside the list, Tab with focus on the last one. *)
Definition wraps (shift : bool) (l : list Element) (a : option Element) : bool :=
  if shift then indexOf l a <=? 0 else indexOf l a =? len l - 1.

(** The page after the listener has prevented the default action and called
    [focus] on [z]. *)
Definition wrapped (z : Element) (p : Page) : Page :=
  {| connected := connected p;
     body := body p;
     activeElement := if bool_decide (z ∈ connected p) && canFocus z
                      then Some z else activeElement p;
     active := active p;
     fishboneOpen := fishboneOpen p;
     values := values p;
     errors := errors p;
     modalEffect := modalEffect p;
     observed := observed p;
     defaultPrevented := true;
     renderPending := false;
     trace := trace p ++ [PreventDefault; Focus z] |}.

(** The position focus moves to from position [i] of a list of [n]. *)
Definition nextIndex (shift : bool) (n i : nat) : nat :=
  if shift then (if decide (i = 0%nat) then n - 1 else i - 1)%nat
  else (if decide (i = (n - 1)%nat) then 0 else i + 1)%nat.

(** The modal is open with closure [t], whose list is [l]; [l] is a run of
    the tab stops of the document and focus is on its element at [i]. *)
Definition trappedAt (t : Trap) (pre l post : list Element) (i : nat) (p : Page) : Prop :=
  openWith t p ∧ focusable t = Some l ∧
  List.filter tabStop (connected p) = pre ++ l ++ post ∧
  ∃ x, l !! i = Some x ∧ activeElement p = Some x.

(** ** Relations between the page before and after a computation *)

(** Every run of [m] relates the page it starts in to the page it ends in. *)
Definition preserves (R : relation Page) {A} (m : M A) : Prop :=
  ∀ p, R p (exec m p).

(** [m] ends normally from every page: it throws nothing. *)
Definition total {A} (m : M A) : Prop := ∀ p, returns m p.

(** The state of the scroll spy is the same. *)
Definition sameTracker (p q : Page) : Prop :=
  active q = active p ∧ observed q = observed p.

(** [I] holds afterwards if it held before. *)
Definition keeps (I : Page → Prop) (p q : Page) : Prop := I p → I q.

(** ** [cx], [usePrefersReducedMotion], [Hero] and [Nav] *)

(** The values the page passes to [cx]: strings, what a failed [&&] leaves,
    and what a missing prop is. *)
Inductive JsValue :=
| VString (s : jsstring)
| VBool (b : bool)
| VUndefined
| VNull.

(** [Boolean(v)] *)
Definition toBoolean (v : JsValue) : bool :=
  match v with
  | VString s => truthy s
  | VBool b => b
  | VUndefined | VNull => false
  end.

(** The string [join] writes for an element: undefined and null give the
    empty string. *)
Definition joinString (v : JsValue) : jsstring :=
  match v with
  | VString s => s
  | VBool true => u "true"
  | VBool false => u "false"
  | VUndefined | VNull => []
  end.

(** [l.join(sep)] *)
Fixpoint join (sep : jsstring) (l : list JsValue) : jsstring :=
  match l with
  | [] => []
  | v :: l' =>
      match l' with
      | [] => joinString v
      | _ :: _ => joinString v ++ sep ++ join sep l'
      end
  end.

(** [(...c) => c.filter(Boolean).join(" ")] *)
Definition cx (c : list JsValue) : jsstring :=
  join (u " ") (List.filter toBoolean c).

(** [window.matchMedia(...)]: whether the query matches now, and whether
    the object has [addEventListener] (the code calls it with [?.]). *)
Record MediaQueryList := { matches : bool; hasAddEventListener : bool }.

(** The state of [usePrefersReducedMotion] with the query it watches. *)
Record Motion := {
  prefers : bool;               (* the hook's state *)
  query : MediaQueryList;       (* mq *)
  listening : bool;             (* onChange is registered on mq *)
}.

(** The first render: [useState(false)], the effect has not run. *)
Definition Motion_initial (mq : MediaQueryList) : Motion :=
  {| prefers := false; query := mq; listening := false |}.

(** [onChange]: [setPrefers(mq.matches)]. *)
Definition Motion_onChange (m : Motion) : Motion :=
  {| prefers := matches (query m); query := query m; listening := listening m |}.

(** The effect: [onChange(); mq.addEventListener?.("change", onChange)]. *)
Definition Motion_effect (m : Motion) : Motion :=
  let m' := Motion_onChange m in
  {| prefers := prefers m'; query := query m';
     listening := hasAddEventListener (query m') |}.

(** host: the query now matches [now]; a registered listener is called. *)
Definition Motion_change (now : bool) (m : Motion) : Motion :=
  let m' := {| prefers := prefers m;
               query := {| matches := now;
                           hasAddEventListener := hasAddEventListener (query m) |};
               listening := listening m |} in
  if listening m then Motion_onChange m' else m'.

(** The hook from its first render through the effect and a sequence of
    changes of the query. *)
Definition usePrefersReducedMotion (mq : MediaQueryList) (changes : list bool) : Motion :=
  fold_left (λ m now, Motion_change now m) changes (Motion_effect (Motion_initial mq)).

(** The entries both menus of [Nav] map over: id and label. *)
Definition navItems : list (string * string) :=
  [ ("home", "Home"); ("activities", "Activities"); ("methodology", "How It Works");
    ("solutions", "Solutions"); ("about", "About"); ("contact", "Contact") ].

(** [aria-current={active===id ? "page" : undefined}] *)
Definition Nav_ariaCurrent (active i : string) : option string :=
  if bool_decide (active = i) then Some "page" else None.

(** The id the callback leaves in the state after a report, if it sets one:
    that of the last intersecting entry. *)
Definition lastIntersecting (entries : list Entry) : option string :=
  last ((λ e, idAttr (target e)) <$> List.filter isIntersecting entries).

(** The strings a pattern stands for. *)
Inductive lang : Re → jsstring → Prop :=
| lang_eps : lang Eps []
| lang_cls f c : f c = true → lang (Cls f) [c]
| lang_seq r s x y : lang r x → lang s y → lang (Seq r s) (x ++ y)
| lang_alt_l r s x : lang r x → lang (Alt r s) x
| lang_alt_r r s x : lang s x → lang (Alt r s) x
| lang_star_nil r : lang (Star r) []
| lang_star_cons r x y : lang r x → lang (Star r) y → lang (Star r) (x ++ y).

(** [v.field] for the controlled inputs. *)
Definition getField (f : Field) (v : Values) : jsstring :=
  match f with
  | FWebsite => website v
  | FName => name v
  | FEmail => email v
  | FOrganization => organization v
  | FRole => role v
  | FMessage => message v
  end.

Global Instance Field_eq_dec : EqDecision Field.
Proof. solve_decision. Defined.

(** The state of the hooks of the page is the same. *)
Definition sameReact (p q : Page) : Prop :=
  values q = values p ∧ errors q = errors p ∧ active q = active p ∧
  fishboneOpen q = fishboneOpen p ∧ observed q = observed p.

(** The form, the modal flag, the document, focus and the observer are the
    same. *)
Definition sameForm (p q : Page) : Prop :=
  values q = values p ∧ errors q = errors p ∧ fishboneOpen q = fishboneOpen p ∧
  connected q = connected p ∧ activeElement q = activeElement p ∧
  modalEffect q = modalEffect p ∧ observed q = observed p ∧ trace q = trace p.

(** ** Tactics *)

Ltac unfold_m :=
  unfold exec, returns, when, guarded, method, throw, call, modify, get,
    mbind, M_bind, mret, M_ret in *.

(** Runs the handlers on a page given by its fields. *)
Ltac symex :=
  cbv beta iota zeta delta
    [ dispatch handle defaultAction commit onClose jump observerCallback
      Modal.effect Modal.dialogRef_current Modal.onKey Modal.cleanup Modal.nonEmpty
      focus preventDefault getElementById scrollIntoView observe insertNodes
      removeNodes sequentialNavigation setActive setFishboneOpen setErrors set
      exec when guarded method throw call modify get mbind M_bind mret M_ret
      with_connected with_activeElement with_active with_fishboneOpen with_values
      with_errors with_modalEffect with_observed with_defaultPrevented
      addKeydownListener removeKeydownListener
      with_renderPending with_trace
      connected body activeElement active fishboneOpen values errors modalEffect
      observed defaultPrevented renderPending trace
      prev focusable key shiftKey tabKey escapeKey
      fst snd negb andb orb fmap option_fmap option_map option_bind default
      from_option id ].

(** ** Lists, indices and strings *)

Lemma indexFrom_lookup (l : list Element) (x : Element) (i : nat) (k : Z) :
  NoDup l → l !! i = Some x → indexFrom l x k = k + Z.of_nat i.
Proof.
  revert i k. induction l as [|y l IH]; intros i k Hnd Hi; [done|].
  apply NoDup_cons in Hnd as [Hy Hnd]. cbn. destruct i as [|i]; cbn in Hi.
  - injection Hi as ->. rewrite decide_True by done. lia.
  - rewrite decide_False.
    + rewrite (IH i) by done. lia.
    + intros ->. apply Hy. eapply list_elem_of_lookup_2. exact Hi.
Qed.

Lemma indexFrom_absent (l : list Element) (x : Element) (k : Z) :
  x ∉ l → indexFrom l x k = -1.
Proof.
  revert k. induction l as [|y l IH]; intros k Hx; [done|].
  apply not_elem_of_cons in Hx as [Hne Hx]. cbn.
  rewrite decide_False by done. by apply IH.
Qed.

Lemma indexOf_lookup (l : list Element) (x : Element) (i : nat) :
  NoDup l → l !! i = Some x → indexOf l (Some x) = Z.of_nat i.
Proof. intros Hnd Hi. unfold indexOf. by rewrite (indexFrom_lookup l x i 0). Qed.

Lemma indexOf_absent (l : list Element) (a : option Element) :
  (∀ x, a = Some x → x ∉ l) → indexOf l a = -1.
Proof. intros H. destruct a as [x|]; [|done]. cbn. apply indexFrom_absent. by apply H. Qed.

Lemma indexOf_head (l : list Element) (x : Element) :
  head l = Some x → indexOf l (Some x) = 0.
Proof. destruct l as [|y l]; [done|]. intros [= ->]. cbn. by rewrite decide_True. Qed.

Lemma item_nat {A} (l : list A) (i : nat) : item l (Z.of_nat i) = l !! i.
Proof.
  unfold item. destruct (Z.ltb_spec (Z.of_nat i) 0); [lia|]. by rewrite Nat2Z.id.
Qed.

Lemma item_last {A} (l : list A) : item l (len l - 1) = last l.
Proof.
  unfold item, len. destruct l as [|x l]; [done|].
  destruct (Z.ltb_spec (Z.of_nat (length (x :: l)) - 1) 0); [cbn [length] in *; lia|].
  rewrite last_lookup. f_equal. cbn [length]. lia.
Qed.

Lemma item_first {A} (l : list A) : item l 0 = head l.
Proof. unfold item. cbn. by rewrite head_lookup. Qed.

Lemma len_nil_iff {A} (l : list A) : (len l =? 0) = true ↔ l = [].
Proof.
  unfold len. destruct l; cbn; [done|]. split; [|done]. intros H. apply Z.eqb_eq in H. lia.
Qed.

Lemma lookup_middle {A} (pre l post : list A) (j : nat) (y : A) :
  l !! j = Some y → (pre ++ l ++ post) !! (length pre + j)%nat = Some y.
Proof.
  intros Hj. rewrite lookup_app_r by lia.
  replace (length pre + j - length pre)%nat with j by lia.
  by apply lookup_app_l_Some.
Qed.

Lemma filter_connected (f : Element → bool) (doc : list Element) (x : Element) :
  x ∈ List.filter f doc → x ∈ doc.
Proof. rewrite !list_elem_of_In, filter_In. tauto. Qed.

Lemma truthy_false (s : jsstring) : truthy s = false ↔ s = [].
Proof. destruct s; cbn; split; congruence. Qed.

Lemma truthy_true (s : jsstring) : truthy s = true ↔ s ≠ [].
Proof. destruct s; cbn; split; congruence. Qed.

Lemma drop_trace (tr calls : list Effect) : drop (length tr) (tr ++ calls) = calls.
Proof. by rewrite drop_app_length. Qed.

(** ** The contact form *)

Lemma keys_none (e : gmap string string) :
  (len (Object_keys e) =? 0) = bool_decide (e = ∅).
Proof.
  unfold len, Object_keys. rewrite length_fmap, length_map_to_list.
  destruct (decide (e = ∅)) as [->|Hne].
  - rewrite map_size_empty. reflexivity.
  - rewrite bool_decide_eq_false_2 by done.
    apply Z.eqb_neq. intros H. apply Hne, map_size_empty_iff. lia.
Qed.

Lemma validate_eq (p : Page) :
  validate p = (Normal (bool_decide (fieldErrors (values p) = ∅)),
                with_renderPending true (with_errors (fieldErrors (values p)) p)).
Proof.
  unfold validate, setErrors. unfold_m. cbn. rewrite keys_none. reflexivity.
Qed.

Lemma submit_eq (p : Page) :
  submit p =
  let q := with_defaultPrevented true (with_trace (trace p ++ [PreventDefault]) p) in
  let q' := with_renderPending true (with_errors (fieldErrors (values p)) q) in
  if bool_decide (fieldErrors (values p) = ∅)
  then (Normal tt,
        with_trace (trace q' ++ [Alert acknowledgment; ConsoleLog "Form:" (values p)]) q')
  else (Normal tt, q').
Proof.
  unfold submit, preventDefault. unfold_m. cbn. rewrite validate_eq. cbn.
  destruct (bool_decide _); cbn; [|reflexivity].
  unfold with_trace; cbn. rewrite <- app_assoc. reflexivity.
Qed.

(** Validation passes exactly when the name, the address and the
    organization have something other than white space, the address matches
    the pattern and the honeypot is empty. *)
Lemma validate_passes_iff (p : Page) :
  (validate p).1 = Normal true ↔
  trim (name (values p)) ≠ [] ∧
  trim (email (values p)) ≠ [] ∧ test emailRx (email (values p)) = true ∧
  trim (organization (values p)) ≠ [] ∧
  website (values p) = [].
Proof.
  rewrite validate_eq. cbn [fst].
  transitivity (fieldErrors (values p) = ∅).
  { split.
    - intros [= H]. by apply bool_decide_eq_true in H.
    - intros H. by rewrite bool_decide_eq_true_2. }
  unfold fieldErrors. rewrite <- !truthy_true, <- truthy_false.
  destruct (truthy (trim (name _))), (truthy (trim (email _))), (test emailRx _),
    (truthy (trim (organization _))), (truthy (website _)); cbn;
    (split; [intros H; try (by apply insert_non_empty in H); done
            | intros (?&?&?&?&?); done]).
Qed.

(** C4, as the code has it: submitting with an empty name, an address that
    does not match the pattern, an organization that has a character other
    than white space and an empty honeypot sets exactly the two errors name
    and email, and makes no call but [preventDefault]: no alert, no log. *)
Theorem submit_two_errors (p : Page) :
  name (values p) = [] →
  test emailRx (email (values p)) = false →
  trim (organization (values p)) ≠ [] →
  website (values p) = [] →
  returns submit p ∧
  errors (exec submit p) =
    {[ "name" := "Please enter your name."; "email" := "Enter a valid email." ]} ∧
  size (errors (exec submit p)) = 2%nat ∧
  newCalls p (exec submit p) = [PreventDefault] ∧
  values (exec submit p) = values p.
Proof.
  intros Hn He Ho Hw.
  assert (Hf : fieldErrors (values p) =
    {[ "name" := "Please enter your name."; "email" := "Enter a valid email." ]}).
  { unfold fieldErrors. rewrite Hn, He, Hw. cbn.
    apply truthy_true in Ho. rewrite Ho. cbn.
    rewrite orb_true_r. apply insert_insert_ne. done. }
  unfold returns, exec, newCalls. rewrite submit_eq. cbn. rewrite Hf.
  rewrite bool_decide_eq_false_2.
  2:{ intros H. apply (f_equal (lookup "name")) in H.
      by rewrite lookup_insert_eq, lookup_empty in H. }
  cbn. split; [eauto|]. split; [done|]. split.
  { rewrite map_size_insert_None by (by rewrite lookup_singleton_ne).
    by rewrite map_size_singleton. }
  split; [|done]. apply drop_trace.
Qed.

Lemma submit_two_errors_witness :
  let p := with_values twoMistakes samplePage in
  returns submit p ∧
  errors (exec submit p) =
    {[ "name" := "Please enter your name."; "email" := "Enter a valid email." ]} ∧
  size (errors (exec submit p)) = 2%nat ∧
  newCalls p (exec submit p) = [PreventDefault] ∧
  values (exec submit p) = values p.
Proof.
  apply (submit_two_errors (with_values twoMistakes samplePage)).
  - reflexivity.
  - vm_compute. reflexivity.
  - vm_compute. discriminate.
  - reflexivity.
Defined.

(** C4 as it is worded fails: an organization of one space is not empty, and
    the submission then sets three errors, not two. *)
Lemma blank_organization_three_errors :
  let p := with_values blankOrganization samplePage in
  name (values p) = [] ∧
  test emailRx (email (values p)) = false ∧
  organization (values p) ≠ [] ∧
  website (values p) = [] ∧
  errors (exec submit p) !! "organization" = Some "Organization is required." ∧
  size (errors (exec submit p)) = 3%nat.
Proof.
  cbn zeta. split; [reflexivity|]. split; [vm_compute; reflexivity|].
  split; [vm_compute; discriminate|]. split; [reflexivity|].
  split; vm_compute; reflexivity.
Qed.

(** C5: whatever the other fields hold, a submission whose honeypot field
    [website] is not empty fails validation, reports the honeypot and makes
    no call but [preventDefault]: the alert and the log are not reached. *)
Theorem honeypot_blocks_submission (p : Page) :
  website (values p) ≠ [] →
  (validate p).1 = Normal false ∧
  returns submit p ∧
  errors (exec submit p) !! "website" = Some "Spam detected." ∧
  newCalls p (exec submit p) = [PreventDefault] ∧
  values (exec submit p) = values p.
Proof.
  intros Hw. apply truthy_true in Hw.
  assert (Hf : fieldErrors (values p) !! "website" = Some "Spam detected.").
  { unfold fieldErrors. rewrite Hw. apply lookup_insert_eq. }
  assert (Hne : fieldErrors (values p) ≠ ∅).
  { intros H. rewrite H, lookup_empty in Hf. discriminate. }
  unfold returns, exec, newCalls. rewrite validate_eq, submit_eq. cbn.
  rewrite bool_decide_eq_false_2 by done. cbn.
  split; [done|]. split; [eauto|]. split; [done|]. split; [|done].
  apply drop_trace.
Qed.

Lemma honeypot_blocks_submission_witness :
  let p := with_values spamValues samplePage in
  fieldErrors (withField FWebsite [] (values p)) = ∅ ∧
  (validate p).1 = Normal false ∧
  newCalls p (exec submit p) = [PreventDefault].
Proof.
  cbn zeta. split; [vm_compute; reflexivity|].
  destruct (honeypot_blocks_submission (with_values spamValues samplePage))
    as (H1 & _ & _ & H2 & _).
  - vm_compute. discriminate.
  - split; [exact H1 | exact H2].
Defined.

(** C10: a submission that passes validation calls the alert (and the log)
    with the values as they are, leaves the values unchanged and leaves the
    errors object empty, whatever errors an earlier submission had set. *)
Theorem valid_submission_keeps_values (p : Page) :
  (validate p).1 = Normal true →
  returns submit p ∧
  values (exec submit p) = values p ∧
  errors (exec submit p) = ∅ ∧
  newCalls p (exec submit p) =
    [PreventDefault; Alert acknowledgment; ConsoleLog "Form:" (values p)].
Proof.
  rewrite validate_eq. cbn. intros [= Hv]. apply bool_decide_eq_true in Hv.
  unfold returns, exec, newCalls. rewrite submit_eq. cbn. rewrite Hv.
  rewrite bool_decide_eq_true_2 by done. cbn.
  split; [eauto|]. split; [done|]. split; [done|].
  rewrite <- app_assoc. apply drop_trace.
Qed.

Lemma valid_submission_keeps_values_witness :
  let p := with_values validValues (exec submit (with_values twoMistakes samplePage)) in
  errors p ≠ ∅ ∧
  values (exec submit p) = validValues ∧
  errors (exec submit p) = ∅ ∧
  newCalls p (exec submit p) =
    [PreventDefault; Alert acknowledgment; ConsoleLog "Form:" validValues].
Proof.
  cbn zeta. split.
  - intros H. apply (f_equal (lookup "name")) in H. vm_compute in H. discriminate.
  - apply (valid_submission_keeps_values
             (with_values validValues (exec submit (with_values twoMistakes samplePage)))).
    vm_compute. reflexivity.
Defined.

(** ** What a computation leaves alone *)

Section Frame.

Context (R : relation Page) `{!Reflexive R} `{!Transitive R}.

Lemma preserves_ret {A} (a : A) : preserves R (mret a).
Proof. intros p. reflexivity. Qed.

Lemma preserves_bind {A B} (m : M A) (f : A → M B) :
  preserves R m → (∀ a, preserves R (f a)) → preserves R (m ≫= f).
Proof.
  intros Hm Hf p. specialize (Hm p). unfold exec in *. unfold mbind, M_bind.
  destruct (m p) as [[a|err] q]; cbn in *; [|done].
  etrans; [exact Hm|]. apply Hf.
Qed.

Lemma preserves_get : preserves R get.
Proof. intros p. reflexivity. Qed.

Lemma preserves_throw {A} err : preserves R (@throw A err).
Proof. intros p. reflexivity. Qed.

Lemma preserves_modify (f : Page → Page) : (∀ p, R p (f p)) → preserves R (modify f).
Proof. intros H p. apply H. Qed.

Lemma preserves_when c m : preserves R m → preserves R (when c m).
Proof. intros H. destruct c; [exact H|]. apply preserves_ret. Qed.

Lemma preserves_guarded o m : (∀ e, preserves R (m e)) → preserves R (guarded o m).
Proof. intros H. destruct o; [apply H|]. apply preserves_ret. Qed.

Lemma preserves_method {A} o (m : Element → M A) :
  (∀ e, preserves R (m e)) → preserves R (method o m).
Proof. intros H. destruct o; [apply H|]. apply preserves_throw. Qed.

Lemma preserves_forEach {A} (l : list A) f :
  (∀ x, x ∈ l → preserves R (f x)) → preserves R (forEach l f).
Proof.
  intros H. induction l as [|x l IH]; cbn.
  - apply preserves_ret.
  - apply preserves_bind; [apply H; left|]. intros _. apply IH.
    intros y Hy. apply H. by right.
Qed.

End Frame.

Ltac frame_bind :=
  match goal with
  | |- preserves ?R (mbind _ _) => apply (preserves_bind R); [|intros ?; cbn beta iota]
  end.

Ltac frame_forEach :=
  match goal with
  | |- preserves ?R (forEach _ _) => apply (preserves_forEach R); intros ? ?
  end.

Ltac frame :=
  repeat match goal with
  | |- preserves ?R (mret _) => apply (preserves_ret R)
  | |- preserves ?R get => apply (preserves_get R)
  | |- preserves ?R (throw _) => apply (preserves_throw R)
  | |- preserves ?R (when _ _) => apply (preserves_when R)
  | |- preserves ?R (guarded _ _) => apply (preserves_guarded R); intros ?
  | |- preserves ?R (method _ _) => apply (preserves_method R); intros ?
  | |- preserves ?R (forEach _ _) => apply (preserves_forEach R); intros ? ?
  | |- preserves ?R (mbind _ _) => apply (preserves_bind R); [|intros ?]
  | |- preserves _ (if ?c then _ else _) => destruct c
  | |- preserves _ (match ?c with _ => _ end) => destruct c
  end.

Global Instance sameTracker_refl : Reflexive sameTracker.
Proof. by intros p. Qed.

Global Instance sameTracker_trans : Transitive sameTracker.
Proof. intros p q r [H1 H2] [H3 H4]. split; congruence. Qed.

Global Instance keeps_refl I : Reflexive (keeps I).
Proof. intros p H. exact H. Qed.

Global Instance keeps_trans I : Transitive (keeps I).
Proof. intros p q r H1 H2 H. by apply H2, H1. Qed.

Lemma tracker_keeps (I : Page → Prop) {A} (m : M A) :
  (∀ p q, sameTracker p q → I p → I q) →
  preserves sameTracker m → preserves (keeps I) m.
Proof. intros HI Hm p. unfold keeps. apply HI, Hm. Qed.

Lemma focus_tracker e : preserves sameTracker (focus e).
Proof. unfold focus, call. frame; by apply preserves_modify. Qed.

Lemma call_tracker e : preserves sameTracker (call e).
Proof. unfold call. by apply preserves_modify. Qed.

Lemma addKeydownListener_tracker t : preserves sameTracker (addKeydownListener t).
Proof. unfold addKeydownListener, call. frame; by apply preserves_modify. Qed.

Lemma removeKeydownListener_tracker t : preserves sameTracker (removeKeydownListener t).
Proof. unfold removeKeydownListener, call. frame; by apply preserves_modify. Qed.

Lemma effect_tracker children o : preserves sameTracker (Modal.effect children o).
Proof.
  unfold Modal.effect, Modal.dialogRef_current.
  frame; auto using focus_tracker, addKeydownListener_tracker.
Qed.

Lemma cleanup_tracker t : preserves sameTracker (Modal.cleanup t).
Proof.
  unfold Modal.cleanup. frame; auto using focus_tracker, removeKeydownListener_tracker.
Qed.

Lemma commit_tracker children : preserves sameTracker (commit children).
Proof.
  unfold commit, removeNodes, insertNodes.
  frame; auto using effect_tracker, cleanup_tracker; by apply preserves_modify.
Qed.

(** Only the entries the observer reports change the state of the scroll spy. *)
Lemma dispatch_tracker children ev :
  (∀ entries, ev ≠ Intersect entries) → preserves sameTracker (dispatch children ev).
Proof.
  intros Hev. unfold dispatch. frame; [by apply preserves_modify | | | apply commit_tracker].
  - destruct ev; try (by exfalso; eapply Hev);
      unfold handle, setFishboneOpen, onClose, Modal.onKey, preventDefault, jump,
        getElementById, scrollIntoView, set, submit, validate, setErrors, preventDefault;
      frame; auto using focus_tracker, call_tracker;
      try (apply preserves_modify; intros ?; repeat case_match; done).
  - unfold defaultAction, sequentialNavigation. frame; by apply preserves_modify.
Qed.

(** ** The scroll spy and the navigator *)

Lemma elementWithId_id i doc e : elementWithId i doc = Some e → idAttr e = i.
Proof.
  unfold elementWithId. case_bool_decide; [done|]. intros Hf.
  apply find_some in Hf as [_ Hf]. by apply bool_decide_eq_true in Hf.
Qed.

(** The mount effect observes only elements that carry a declared id, and
    does not touch the active id. *)
Lemma observeSections_keeps (all : list string) :
  sections ⊆ all →
  preserves (keeps (λ q, Forall (λ e, idAttr e ∈ all) (observed q) ∧ active q = "home"))
    observeSections.
Proof.
  intros Hsub. unfold observeSections. frame_forEach. intros p [Ho Ha].
  unfold exec, getElementById, observe. unfold_m. cbn.
  destruct (elementWithId _ (connected p)) as [e|] eqn:He; cbn; [|done].
  apply elementWithId_id in He. case_bool_decide; cbn; [done|].
  split; [|done]. apply Forall_app. split; [done|]. apply Forall_singleton.
  rewrite He. by apply Hsub.
Qed.

Lemma intersect_keeps children (O : list Element) (entries : list Entry) :
  Forall (λ e, idAttr e ∈ sections) O →
  Forall (λ e, target e ∈ O) entries →
  preserves (keeps (λ q, observed q = O ∧ active q ∈ sections))
    (dispatch children (Intersect entries)).
Proof.
  intros HO He.
  assert (Hframe : ∀ p q, sameTracker p q →
            observed p = O ∧ active p ∈ sections → observed q = O ∧ active q ∈ sections).
  { intros p q [H1 H2] [H3 H4]. split; congruence. }
  unfold dispatch. frame.
  - apply tracker_keeps; [done|]. by apply preserves_modify.
  - unfold handle, observerCallback. frame.
    unfold setActive. apply preserves_modify. intros p [Hp Ha].
    case_bool_decide; cbn; [done|]. split; [done|].
    rewrite Forall_forall in He. rewrite Forall_forall in HO. by apply HO, He.
  - unfold defaultAction. frame.
  - apply tracker_keeps; [done|]. apply commit_tracker.
Qed.

Lemma quiet_keeps children (s : string) (entries : list Entry) :
  Forall (λ e, isIntersecting e = false) entries →
  preserves (keeps (λ q, active q = s)) (dispatch children (Intersect entries)).
Proof.
  intros He.
  assert (Hframe : ∀ p q, sameTracker p q → active p = s → active q = s).
  { intros p q [H1 H2] H3. congruence. }
  unfold dispatch. frame.
  - apply tracker_keeps; [done|]. by apply preserves_modify.
  - unfold handle, observerCallback.
    frame_bind; [frame|]. frame_forEach.
    rewrite Forall_forall in He. rewrite He by done. unfold when. frame.
  - unfold defaultAction. frame.
  - apply tracker_keeps; [done|]. apply commit_tracker.
Qed.

Lemma run_keeps children (I : Page → Prop) (evs : list Event) :
  Forall (λ ev, preserves (keeps I) (dispatch children ev)) evs →
  ∀ p, I p → I (run children evs p).
Proof.
  induction 1 as [|ev evs Hev _ IH]; intros p Hp; [done|].
  cbn. apply IH. by apply Hev.
Qed.

(** C6: the active id starts as home; after any sequence of reports of the
    observer, each about elements it observes, the active id is one of the
    six declared section ids; and if no reported entry is intersecting, it
    still is home. *)
Theorem active_section_is_declared children doc b (batches : list (list Entry)) :
  Forall (Forall (λ e, target e ∈ observed (mount doc b))) batches →
  active (mount doc b) = "home" ∧
  active (run children (Intersect <$> batches) (mount doc b)) ∈ sections ∧
  (Forall (Forall (λ e, isIntersecting e = false)) batches →
   active (run children (Intersect <$> batches) (mount doc b)) = "home").
Proof.
  intros Hb.
  destruct (observeSections_keeps sections (reflexivity _)
    {| connected := doc; body := b; activeElement := b;
       active := "home"; fishboneOpen := false;
       values := initialValues; errors := ∅;
       modalEffect := None; observed := [];
       defaultPrevented := false; renderPending := false; trace := [] |})
    as [Ho Ha]; [by split|].
  fold (mount doc b) in Ho, Ha.
  split; [exact Ha|]. split.
  - eapply (run_keeps children
              (λ q, observed q = observed (mount doc b) ∧ active q ∈ sections)).
    + apply Forall_fmap. eapply Forall_impl; [exact Hb|]. intros entries He. cbn.
      by apply intersect_keeps.
    + split; [done|]. rewrite Ha. by left.
  - intros Hq.
    apply (run_keeps children (λ q, active q = "home")); [|done].
    apply Forall_fmap. eapply Forall_impl; [exact Hq|]. intros entries He. cbn.
    by apply quiet_keeps.
Qed.

Lemma active_section_is_declared_witness :
  let reports :=
    [ [ {| target := pageNode 2 "section" "activities" false; isIntersecting := true |} ];
      [ {| target := pageNode 2 "section" "activities" false; isIntersecting := false |};
        {| target := pageNode 7 "section" "contact" false; isIntersecting := true |} ] ] in
  active (run [fishboneFrame] (Intersect <$> reports) samplePage) = "contact" ∧
  active (run [fishboneFrame] (Intersect <$> reports) samplePage) ∈ sections.
Proof.
  cbn zeta. split; [vm_compute; reflexivity|].
  apply (active_section_is_declared [fishboneFrame] sampleDocument (Some pageBody)).
  repeat constructor; apply (bool_decide_unpack _); vm_compute; exact I.
Defined.

Lemma jump_eq (i : string) (p : Page) :
  jump i p =
  match elementWithId i (connected p) with
  | Some el => (Normal tt, with_trace (trace p ++ [ScrollIntoView el "smooth" "start"]) p)
  | None => (Normal tt, p)
  end.
Proof.
  unfold jump, getElementById, scrollIntoView. unfold_m. cbn.
  destruct (elementWithId i (connected p)); reflexivity.
Qed.

(** C8: for every id, [jump] ends normally and leaves the active id as it
    was, also once the event it handles is fully dispatched; with no element
    of that id in the document it changes nothing at all, and otherwise all
    it does is one call of [scrollIntoView] on that element, smooth and
    aligned to the start of the element. *)
Theorem jump_scrolls_or_ignores children (i : string) (p : Page) :
  returns (jump i) p ∧
  active (exec (jump i) p) = active p ∧
  active (exec (dispatch children (Navigate i)) p) = active p ∧
  match elementWithId i (connected p) with
  | None => exec (jump i) p = p
  | Some el =>
      exec (jump i) p = with_trace (trace p ++ [ScrollIntoView el "smooth" "start"]) p
  end.
Proof.
  unfold returns, exec. rewrite jump_eq. split; [|split; [|split]].
  - destruct (elementWithId i (connected p)); eauto.
  - by destruct (elementWithId i (connected p)).
  - by apply (dispatch_tracker children (Navigate i)).
  - by destruct (elementWithId i (connected p)).
Qed.

(** ** The modal: opening and closing *)

Lemma selector_dialog children :
  querySelectorAll Modal.focusableSelector (Modal.dialogDescendants children) =
  Modal.closeButton :: querySelectorAll Modal.focusableSelector children.
Proof. reflexivity. Qed.

Lemma rendered_dialog children : Modal.dialog ∈ Modal.rendered children.
Proof. unfold Modal.rendered. do 3 right. left. Qed.

Lemma rendered_closeButton children : Modal.closeButton ∈ Modal.rendered children.
Proof. unfold Modal.rendered, Modal.dialogDescendants. do 6 right. left. Qed.

(** Opening from a closed page. *)
Lemma open_eq children q :
  closed q → dispatch children ClickTryLiveDemo q = (Normal tt, opened children q).
Proof.
  intros (Ho & Hm & Hr). destruct q. cbn in Ho, Hm, Hr. subst.
  unfold opened. symex.
  rewrite (bool_decide_eq_false_2 (false = true)) by done. symex.
  rewrite bool_decide_eq_true_2 by (apply elem_of_app; right; apply rendered_dialog).
  symex. rewrite selector_dialog. cbn [head]. symex.
  rewrite bool_decide_eq_true_2 by (apply elem_of_app; right; apply rendered_closeButton).
  cbn [canFocus Modal.closeButton Modal.node]. symex. rewrite <- app_assoc. reflexivity.
Qed.

(** Closing an open page, by any of the three ways. *)
Lemma close_eq children ev t p :
  closes ev → openWith t p →
  dispatch children ev p = (Normal tt, closedFrom children t p).
Proof.
  intros Hev (Ho & Hm & Hr). destruct p, t as [pr fo]. cbn in Ho, Hm, Hr. subst.
  unfold closedFrom, focusAfterRemoval.
  destruct Hev; symex.
  1,2: rewrite (bool_decide_eq_true_2 (is_Some _)) by eauto; symex.
  3: rewrite (bool_decide_eq_true_2 ("Escape" = "Escape")%string) by done; symex.
  all: rewrite (bool_decide_eq_false_2 (true = false)) by done; symex.
  3: rewrite (bool_decide_eq_false_2 ("Escape" = "Tab")%string) by done; symex.
  all: rewrite (bool_decide_eq_true_2 (Some _ = Some _)) by done; symex.
  all: destruct pr as [e|]; symex; by rewrite <- ?app_assoc.
Qed.

(** A key press on a closed page reaches no listener of the modal. *)
Lemma escape_closed_eq children shift q :
  closed q →
  dispatch children (escapeKey shift) q = (Normal tt, with_defaultPrevented false q).
Proof.
  intros (Ho & Hm & Hr). destruct q. cbn in Ho, Hm, Hr. subst. symex.
  by rewrite (bool_decide_eq_false_2 ("Escape" = "Tab")%string) by done.
Qed.

(** C1 as it is worded fails: with the element that had focus before the
    modal opened gone from the document, closing still calls [focus] on it. *)
Lemma close_calls_focus_on_detached :
  let p := detachedPage in
  let p' := exec (dispatch [fishboneFrame] (escapeKey false)) p in
  (prev <$> modalEffect p) = Some (Some demoButton) ∧
  (demoButton ∉ connected p) ∧
  (demoButton ∉ connected p') ∧
  Focus demoButton ∈ newCalls p p'.
Proof.
  cbn zeta. split; [vm_compute; reflexivity|].
  repeat split; apply (bool_decide_unpack _); vm_compute; exact I.
Qed.

(** C2, as the code has it: when the modal opens and nothing in its
    children matches the selector, the only [focus] call is on the Close
    button in the header of the dialog, which takes focus, is the one
    element of the focus trap and is a tab stop of the document; the dialog
    container is not focused. *)
Theorem open_focuses_close_button children (q : Page) :
  closed q →
  querySelectorAll Modal.focusableSelector children = [] →
  returns (dispatch children ClickTryLiveDemo) q ∧
  activeElement (exec (dispatch children ClickTryLiveDemo) q) = Some Modal.closeButton ∧
  (focusable <$> modalEffect (exec (dispatch children ClickTryLiveDemo) q))
    = Some (Some [Modal.closeButton]) ∧
  newCalls q (exec (dispatch children ClickTryLiveDemo) q)
    = [Focus Modal.closeButton; AddKeydownListener] ∧
  Modal.closeButton ∈
    List.filter tabStop (connected (exec (dispatch children ClickTryLiveDemo) q)).
Proof.
  intros Hq Hc. unfold returns, exec, newCalls. rewrite (open_eq children q Hq). cbn.
  rewrite Hc. split; [eauto|]. split; [done|]. split; [done|].
  split; [apply drop_trace|].
  rewrite list_elem_of_In, filter_In, <- list_elem_of_In. split; [|done].
  apply elem_of_app. right. apply rendered_closeButton.
Qed.

Lemma open_focuses_close_button_witness :
  querySelectorAll Modal.focusableSelector [fishboneFrame] = [] ∧
  activeElement openPage = Some Modal.closeButton ∧
  newCalls focusedPage openPage = [Focus Modal.closeButton; AddKeydownListener].
Proof.
  split; [reflexivity|].
  destruct (open_focuses_close_button [fishboneFrame] focusedPage)
    as (_ & H1 & _ & H2 & _).
  - vm_compute. auto.
  - reflexivity.
  - split; [exact H1 | exact H2].
Defined.

(** C2 as it is worded fails: opened with no children at all, the modal
    puts focus on its Close button; the dialog container neither has focus
    nor is [focus] ever called on it. *)
Lemma open_leaves_container_unfocused :
  let p := exec (dispatch [] ClickTryLiveDemo) focusedPage in
  querySelectorAll Modal.focusableSelector [] = [] ∧
  activeElement p = Some Modal.closeButton ∧
  activeElement p ≠ Some Modal.dialog ∧
  Focus Modal.dialog ∉ trace p.
Proof.
  cbn zeta. split; [reflexivity|]. split; [vm_compute; reflexivity|].
  split; [vm_compute; discriminate|].
  apply (bool_decide_unpack _). vm_compute. exact I.
Qed.

(** C7: Escape on the open modal closes it and calls [onClose] once, and
    the cleanup of the effect takes the keydown listener off the document,
    in one call of [removeEventListener]; Escape on the page that results
    therefore reaches no listener: the page stays as it is, so the state
    does not change and [onClose] is not called. *)
Theorem escape_closes_once children (t : Trap) (p : Page) (shift shift' : bool) :
  openWith t p →
  returns (dispatch children (escapeKey shift)) p ∧
  closed (exec (dispatch children (escapeKey shift)) p) ∧
  List.filter (λ c, bool_decide (c = OnClose))
    (newCalls p (exec (dispatch children (escapeKey shift)) p)) = [OnClose] ∧
  List.filter (λ c, bool_decide (c = RemoveKeydownListener))
    (newCalls p (exec (dispatch children (escapeKey shift)) p)) = [RemoveKeydownListener] ∧
  dispatch children (escapeKey shift') (exec (dispatch children (escapeKey shift)) p) =
    (Normal tt, exec (dispatch children (escapeKey shift)) p).
Proof.
  intros Hp. unfold returns, exec, newCalls.
  rewrite (close_eq children _ t p (closes_escape shift) Hp). cbn [fst snd].
  split; [eauto|]. split; [done|]. split; [|split].
  - cbn [trace closedFrom]. rewrite drop_trace. by destruct (prev t).
  - cbn [trace closedFrom]. rewrite drop_trace. by destruct (prev t).
  - by rewrite escape_closed_eq.
Qed.

Lemma escape_closes_once_witness :
  let p1 := exec (dispatch [fishboneFrame] (escapeKey false)) openPage in
  fishboneOpen openPage = true ∧
  modalEffect openPage
    = Some {| prev := Some demoButton; focusable := Some [Modal.closeButton] |} ∧
  fishboneOpen p1 = false ∧
  modalEffect p1 = None ∧
  exec (dispatch [fishboneFrame] (escapeKey false)) p1 = p1.
Proof.
  cbn zeta. split; [vm_compute; reflexivity|]. split; [vm_compute; reflexivity|].
  destruct (escape_closes_once [fishboneFrame]
              {| prev := Some demoButton; focusable := Some [Modal.closeButton] |}
              openPage false false) as (_ & (H1 & H2 & _) & _ & _ & H3).
  - vm_compute. auto.
  - split; [exact H1|]. split; [exact H2|]. unfold exec at 1. by rewrite H3.
Defined.

(** ** The modal: the focus trap *)

(** Tab and Shift+Tab on an open modal whose list is not empty: the
    listener wraps, or the browser navigates. *)
Lemma tab_eq children t p (shift : bool) (l : list Element) z :
  openWith t p → focusable t = Some l →
  (if shift then last l else head l) = Some z →
  dispatch children (tabKey shift) p =
  (Normal tt,
   if wraps shift l (activeElement p) then wrapped z p
   else exec (sequentialNavigation shift) (with_defaultPrevented false p)).
Proof.
  intros (Ho & Hm & Hr) Hf Hz.
  destruct p as [doc b a s fo v er me ob dp rp tr], t as [pr fc].
  cbn in Ho, Hm, Hr, Hf. subst.
  assert (Hne : (len l =? 0) = false).
  { apply not_true_is_false. rewrite len_nil_iff. intros ->. by destruct shift. }
  unfold wraps, wrapped. symex.
  rewrite (bool_decide_eq_false_2 ("Tab" = "Escape")%string) by done.
  rewrite (bool_decide_eq_true_2 ("Tab" = "Tab")%string) by done.
  rewrite Hne. symex.
  destruct shift; symex.
  - destruct (indexOf l a <=? 0); symex.
    + rewrite item_last, Hz. symex. by rewrite <- app_assoc.
    + done.
  - destruct (indexOf l a =? len l - 1); symex.
    + rewrite item_first, Hz. symex. by rewrite <- app_assoc.
    + done.
Qed.

Section Trap.

Variable children : list Element.
Variable t : Trap.
Variables pre l post : list Element.
Hypothesis order_NoDup : NoDup (pre ++ l ++ post).
Hypothesis list_canFocus : Forall (λ e, canFocus e = true) l.

Lemma list_NoDup : NoDup l.
Proof.
  apply NoDup_app in order_NoDup as (_ & _ & H). by apply NoDup_app in H as (H & _ & _).
Qed.

(** One press moves focus from position [i] of the list to the next
    position round the list, and leaves the modal as it is. *)
Lemma tab_step (shift : bool) (i : nat) (p : Page) :
  trappedAt t pre l post i p →
  trappedAt t pre l post (nextIndex shift (length l) i)
    (exec (dispatch children (tabKey shift)) p).
Proof.
  intros ((Ho & Hm & Hr) & Hf & Hord & x & Hi & Ha).
  assert (Hlt : (i < length l)%nat) by (eapply lookup_lt_Some; exact Hi).
  assert (Hz : ∃ z, (if shift then last l else head l) = Some z ∧
                    l !! (if shift then length l - 1 else 0)%nat = Some z).
  { destruct shift.
    - rewrite last_lookup. replace (pred (length l)) with (length l - 1)%nat by lia.
      destruct (lookup_lt_is_Some_2 l (length l - 1)) as [z Hz]; [lia|]. eauto.
    - rewrite head_lookup. destruct (lookup_lt_is_Some_2 l 0) as [z Hz]; [lia|]. eauto. }
  destruct Hz as (z & Hz & Hzi).
  unfold exec. rewrite (tab_eq children t p shift l z) by done. cbn [snd].
  unfold wraps. rewrite Ha, (indexOf_lookup l x i list_NoDup Hi).
  destruct p as [doc b a s fo v er me ob dp rp tr]. cbn in Ho, Hm, Hr, Hord, Ha. subst.
  assert (Hzc : z ∈ doc).
  { apply (filter_connected tabStop). rewrite Hord.
    apply elem_of_app. right. apply elem_of_app. left.
    eapply list_elem_of_lookup_2. exact Hzi. }
  assert (Hzf : canFocus z = true).
  { rewrite Forall_forall in list_canFocus. apply list_canFocus.
    eapply list_elem_of_lookup_2. exact Hzi. }
  unfold trappedAt, openWith, nextIndex, wrapped.
  destruct shift.
  - destruct (Z.leb_spec (Z.of_nat i) 0) as [Hle|Hgt].
    + rewrite decide_True by lia. cbn.
      rewrite bool_decide_eq_true_2, Hzf by done. cbn. eauto 10.
    + rewrite decide_False by lia.
      destruct (lookup_lt_is_Some_2 l (i - 1)) as [y Hy]; [lia|].
      unfold sequentialNavigation. symex. rewrite Hord.
      rewrite (indexOf_lookup _ x (length pre + i)) by (done || by apply lookup_middle).
      destruct (Z.leb_spec (Z.of_nat (length pre + i)) 0); [lia|].
      replace (Z.of_nat (length pre + i) - 1) with (Z.of_nat (length pre + (i - 1))) by lia.
      rewrite item_nat, (lookup_middle pre l post (i - 1) y Hy). cbn. eauto 10.
  - destruct (Z.eqb_spec (Z.of_nat i) (len l - 1)) as [Heq|Hne]; unfold len in *.
    + rewrite decide_True by lia. cbn.
      rewrite bool_decide_eq_true_2, Hzf by done. cbn. eauto 10.
    + rewrite decide_False by lia.
      destruct (lookup_lt_is_Some_2 l (i + 1)) as [y Hy]; [lia|].
      unfold sequentialNavigation. symex. rewrite Hord.
      rewrite (indexOf_lookup _ x (length pre + i)) by (done || by apply lookup_middle).
      destruct (Z.eqb_spec (Z.of_nat (length pre + i)) (len (pre ++ l ++ post) - 1))
        as [Heq|_].
      { unfold len in Heq. rewrite !length_app in Heq. lia. }
      replace (Z.of_nat (length pre + i) + 1) with (Z.of_nat (length pre + (i + 1))) by lia.
      rewrite item_nat, (lookup_middle pre l post (i + 1) y Hy). cbn. eauto 10.
Qed.

(** Any sequence of presses leaves focus on some position of the list. *)
Lemma tab_run (presses : list bool) (i : nat) (p : Page) :
  trappedAt t pre l post i p →
  ∃ j, trappedAt t pre l post j (run children (tabKey <$> presses) p).
Proof.
  revert i p. induction presses as [|shift presses IH]; intros i p Hp; [by exists i|].
  cbn. eapply IH. apply tab_step. exact Hp.
Qed.

End Trap.

(** C3, as the code has it: with the modal open, its list [l] a run of
    consecutive, distinct tab stops of the document, every element of [l]
    able to take focus and focus on an element of [l], any sequence of Tab
    and Shift+Tab presses ends with focus on an element of [l]; Tab on the
    last element moves focus to the first and Shift+Tab on the first moves
    it to the last. *)
Theorem tab_cycles_within_modal children (t : Trap) (pre l post : list Element)
    (x : Element) (p : Page) (presses : list bool) :
  openWith t p → focusable t = Some l →
  List.filter tabStop (connected p) = pre ++ l ++ post →
  NoDup (pre ++ l ++ post) →
  Forall (λ e, canFocus e = true) l →
  activeElement p = Some x → x ∈ l →
  (∃ y, y ∈ l ∧ activeElement (run children (tabKey <$> presses) p) = Some y) ∧
  (last l = Some x →
   activeElement (exec (dispatch children (tabKey false)) p) = head l) ∧
  (head l = Some x →
   activeElement (exec (dispatch children (tabKey true)) p) = last l).
Proof.
  intros Hp Hf Hord Hnd Hcan Ha Hx.
  assert (Hat : ∀ i, l !! i = Some x → trappedAt t pre l post i p).
  { intros i Hi. split; [done|]. split; [done|]. split; [done|]. eauto. }
  assert (Hlen : (0 < length l)%nat) by (destruct l; [by apply elem_of_nil in Hx|cbn; lia]).
  split; [|split].
  - apply list_elem_of_lookup_1 in Hx as [i Hi].
    destruct (tab_run children t pre l post Hnd Hcan presses i p (Hat i Hi))
      as (j & _ & _ & _ & y & Hj & Hy).
    exists y. split; [|done]. eapply list_elem_of_lookup_2. exact Hj.
  - intros Hlast. rewrite last_lookup in Hlast.
    destruct (tab_step children t pre l post Hnd Hcan false _ p (Hat _ Hlast))
      as (_ & _ & _ & y & Hj & Hy).
    unfold nextIndex in Hj. rewrite decide_True in Hj by lia.
    by rewrite Hy, head_lookup.
  - intros Hhead. rewrite head_lookup in Hhead.
    destruct (tab_step children t pre l post Hnd Hcan true _ p (Hat _ Hhead))
      as (_ & _ & _ & y & Hj & Hy).
    unfold nextIndex in Hj. rewrite decide_True in Hj by lia.
    rewrite Hy, last_lookup, <- Hj. f_equal. lia.
Qed.

Lemma tab_cycles_within_modal_witness :
  let l := [Modal.closeButton; childButton 1; childButton 2] in
  (focusable <$> modalEffect buttonsPage) = Some (Some l) ∧
  activeElement (run twoButtons (tabKey <$> [false; false]) buttonsPage)
    = Some (childButton 2) ∧
  activeElement (run twoButtons (tabKey <$> [false; false; false]) buttonsPage)
    = Some Modal.closeButton ∧
  (∃ y, y ∈ l ∧
     activeElement (run twoButtons (tabKey <$> [false; true; true; false; false]) buttonsPage)
       = Some y) ∧
  activeElement (exec (dispatch twoButtons (tabKey true)) buttonsPage) = last l.
Proof.
  cbn zeta. split; [vm_compute; reflexivity|].
  split; [vm_compute; reflexivity|]. split; [vm_compute; reflexivity|].
  destruct (tab_cycles_within_modal twoButtons
              {| prev := Some demoButton;
                 focusable := Some [Modal.closeButton; childButton 1; childButton 2] |}
              (List.filter tabStop sampleDocument)
              [Modal.closeButton; childButton 1; childButton 2] []
              Modal.closeButton buttonsPage [false; true; true; false; false])
    as (H1 & _ & H2).
  - vm_compute. auto.
  - reflexivity.
  - vm_compute. reflexivity.
  - apply (bool_decide_unpack _). vm_compute. exact I.
  - repeat constructor.
  - vm_compute. reflexivity.
  - left.
  - split; [exact H1|]. apply H2. reflexivity.
Defined.

(** C3 as it is worded fails.  A disabled button is matched by the selector
    and is the last element of the list, so Tab on the Close button is not
    taken by the listener and the browser moves focus out of the modal.  An
    iframe between two buttons is a tab stop the selector does not match, so
    Tab on the first button moves focus to it, off the list. *)
Lemma tab_leaves_the_list :
  let l1 := [Modal.closeButton; disabledButton 1] in
  let p1 := exec (dispatch [disabledButton 1] (tabKey false)) disabledPage in
  let l2 := [Modal.closeButton; childButton 1; childButton 3] in
  let p2 := run framedButtons [tabKey false; tabKey false] framedPage in
  ((focusable <$> modalEffect disabledPage) = Some (Some l1) ∧
   activeElement disabledPage = Some Modal.closeButton ∧
   activeElement p1 = Some demoButton ∧
   (demoButton ∉ l1) ∧ (demoButton ∉ Modal.rendered [disabledButton 1])) ∧
  ((focusable <$> modalEffect framedPage) = Some (Some l2) ∧
   activeElement framedPage = Some Modal.closeButton ∧
   activeElement (exec (dispatch framedButtons (tabKey false)) framedPage)
     = Some (childButton 1) ∧
   activeElement p2 = Some (childFrame 2) ∧
   (childFrame 2 ∉ l2)).
Proof.
  cbn zeta. split.
  - split; [vm_compute; reflexivity|]. split; [vm_compute; reflexivity|].
    split; [vm_compute; reflexivity|].
    split; apply (bool_decide_unpack _); vm_compute; exact I.
  - split; [vm_compute; reflexivity|]. split; [vm_compute; reflexivity|].
    split; [vm_compute; reflexivity|]. split; [vm_compute; reflexivity|].
    apply (bool_decide_unpack _). vm_compute. exact I.
Qed.

(** C9: with the modal open, its list not empty and the last element of
    the list able to take focus, Shift+Tab with focus on nothing in the list
    (index -1) is taken by the listener and moves focus to the last element
    of the list, as Shift+Tab with focus on the first element does; Tab with
    focus on nothing in the list is left to the browser: the listener makes
    no call and the default action is not prevented. *)
Theorem shift_tab_from_outside_wraps children (t : Trap) (l : list Element)
    (z : Element) (p p0 : Page) :
  openWith t p → focusable t = Some l → last l = Some z →
  z ∈ connected p → canFocus z = true →
  (∀ x, activeElement p = Some x → x ∉ l) →
  openWith t p0 → z ∈ connected p0 → activeElement p0 = head l →
  indexOf l (activeElement p) = -1 ∧
  activeElement (exec (dispatch children (tabKey true)) p) = Some z ∧
  defaultPrevented (exec (dispatch children (tabKey true)) p) = true ∧
  activeElement (exec (dispatch children (tabKey true)) p0) = Some z ∧
  defaultPrevented (exec (dispatch children (tabKey true)) p0) = true ∧
  exec (dispatch children (tabKey false)) p =
    exec (sequentialNavigation false) (with_defaultPrevented false p) ∧
  defaultPrevented (exec (dispatch children (tabKey false)) p) = false ∧
  newCalls p (exec (dispatch children (tabKey false)) p) = [].
Proof.
  intros Hp Hf Hz Hzc Hzf Hout Hp0 Hzc0 Ha0.
  assert (Hidx : indexOf l (activeElement p) = -1) by by apply indexOf_absent.
  assert (Hhd : ∃ h, head l = Some h) by (destruct l; [done|eauto]).
  destruct Hhd as [h Hh].
  assert (Hlen : 1 <= len l) by (unfold len; destruct l; [done|cbn; lia]).
  split; [done|]. unfold exec, newCalls.
  rewrite (tab_eq children t p true l z Hp Hf Hz).
  rewrite (tab_eq children t p0 true l z Hp0 Hf Hz).
  rewrite (tab_eq children t p false l h Hp Hf Hh).
  unfold wraps. rewrite Hidx, Ha0, Hh, (indexOf_head l h Hh). cbn [fst snd Z.leb Z.compare].
  destruct (Z.eqb_spec (-1) (len l - 1)) as [Heq|_]; [lia|].
  unfold wrapped. cbn [activeElement defaultPrevented].
  rewrite !bool_decide_eq_true_2, Hzf by done. cbn [andb].
  repeat split. unfold sequentialNavigation. symex.
  destruct p. symex. apply drop_all.
Qed.

Lemma shift_tab_from_outside_wraps_witness :
  let back := exec (dispatch [fishboneFrame] (tabKey true)) strayPage in
  let forth := exec (dispatch [fishboneFrame] (tabKey false)) strayPage in
  indexOf [Modal.closeButton] (activeElement strayPage) = -1 ∧
  activeElement back = Some Modal.closeButton ∧
  defaultPrevented forth = false ∧
  newCalls strayPage forth = [].
Proof.
  cbn zeta.
  destruct (shift_tab_from_outside_wraps [fishboneFrame]
              {| prev := Some demoButton; focusable := Some [Modal.closeButton] |}
              [Modal.closeButton] Modal.closeButton strayPage openPage)
    as (H1 & H2 & _ & _ & _ & _ & H3 & H4).
  - vm_compute. auto.
  - reflexivity.
  - reflexivity.
  - apply (bool_decide_unpack _). vm_compute. exact I.
  - reflexivity.
  - intros x [= <-]. apply (bool_decide_unpack _). vm_compute. exact I.
  - vm_compute. auto.
  - apply (bool_decide_unpack _). vm_compute. exact I.
  - vm_compute. reflexivity.
  - split; [exact H1|]. split; [exact H2|]. split; [exact H3|exact H4].
Defined.

(** ** No handler throws *)

Lemma total_ret {A} (a : A) : total (mret a).
Proof. intros p. by exists a. Qed.

Lemma total_bind {A B} (m : M A) (f : A → M B) :
  total m → (∀ a, total (f a)) → total (m ≫= f).
Proof.
  intros Hm Hf p. destruct (Hm p) as [a Ha]. unfold returns in *. unfold mbind, M_bind.
  destruct (m p) as [[a'|err] q]; cbn in *; [|done]. apply Hf.
Qed.

Lemma total_get : total get.
Proof. intros p. by exists p. Qed.

Lemma total_modify f : total (modify f).
Proof. intros p. by exists tt. Qed.

Lemma total_when c m : total m → total (when c m).
Proof. intros H. destruct c; [exact H|]. apply total_ret. Qed.

Lemma total_guarded o m : (∀ e, total (m e)) → total (guarded o m).
Proof. intros H. destruct o; [apply H|]. apply total_ret. Qed.

Lemma total_forEach {A} (l : list A) f : (∀ x, total (f x)) → total (forEach l f).
Proof.
  intros H. induction l as [|x l IH]; cbn.
  - apply total_ret.
  - apply total_bind; [apply H|]. intros _. exact IH.
Qed.

Ltac total :=
  repeat match goal with
  | |- total (mret _) => apply total_ret
  | |- total get => apply total_get
  | |- total (modify _) => apply total_modify
  | |- total (call _) => apply total_modify
  | |- total (when _ _) => apply total_when
  | |- total (guarded _ _) => apply total_guarded; intros ?
  | |- total (forEach _ _) => apply total_forEach; intros ?
  | |- total (mbind _ _) => apply total_bind; [|intros ?]
  | |- total (if ?c then _ else _) => destruct c
  | |- total (match ?c with _ => _ end) => destruct c
  end.

Lemma focus_total e : total (focus e).
Proof. unfold focus. total. Qed.

Lemma preventDefault_total : total preventDefault.
Proof. unfold preventDefault. total. Qed.

Lemma onKey_total t oc e : total oc → total (Modal.onKey t oc e).
Proof.
  intros Hoc. unfold Modal.onKey.
  apply total_bind; [by apply total_when|]. intros _.
  destruct (focusable t) as [l|]; cbn [Modal.nonEmpty default from_option id].
  2:{ rewrite andb_false_r. apply total_ret. }
  destruct (len l =? 0) eqn:Hl; cbn [negb].
  { rewrite andb_false_r. apply total_ret. }
  apply total_when.
  assert (Hne : l ≠ []).
  { intros ->. done. }
  rewrite item_last, item_first.
  destruct l as [|x l]; [done|]. cbn [head]. 
  destruct (last (x :: l)) as [z|] eqn:Hz.
  2:{ apply last_None in Hz. done. }
  unfold method.
  total; auto using focus_total, preventDefault_total.
Qed.

Lemma effect_total children o : total (Modal.effect children o).
Proof.
  unfold Modal.effect, Modal.dialogRef_current, addKeydownListener.
  total; apply focus_total.
Qed.

Lemma cleanup_total t : total (Modal.cleanup t).
Proof. unfold Modal.cleanup, removeKeydownListener. total; apply focus_total. Qed.

Lemma commit_total children : total (commit children).
Proof.
  unfold commit, removeNodes, insertNodes.
  total; auto using effect_total, cleanup_total.
Qed.

Lemma validate_total : total validate.
Proof. unfold validate, setErrors. total. Qed.

(** No event makes a handler throw: every dispatch ends normally. *)
Theorem dispatch_returns children ev : total (dispatch children ev).
Proof.
  unfold dispatch. total; [| |apply commit_total].
  - destruct ev; unfold handle, setFishboneOpen, onClose, observerCallback, setActive, jump,
      getElementById, scrollIntoView, set, submit;
      total; auto using preventDefault_total, validate_total;
      apply onKey_total; unfold setFishboneOpen; total.
  - unfold defaultAction, sequentialNavigation. total.
Qed.

(** ** Renders while the modal is open, and events of any kind *)

(** A render of the page while the modal is open runs the cleanup and the
    effect again: focus goes back to the Close button, and the effect
    captures the same element again as long as that element is in the
    document and can take focus. *)
Lemma render_keeps_effect children (e : Element) (p : Page) :
  let t := {| prev := Some e;
              focusable := Some (Modal.closeButton ::
                                 querySelectorAll Modal.focusableSelector children) |} in
  fishboneOpen p = true → modalEffect p = Some t → renderPending p = true →
  e ∈ connected p → canFocus e = true →
  Modal.dialog ∈ connected p → Modal.closeButton ∈ connected p →
  openWith t (exec (commit children) p) ∧
  activeElement (exec (commit children) p) = Some Modal.closeButton ∧
  newCalls p (exec (commit children) p) =
    [RemoveKeydownListener; Focus e; Focus Modal.closeButton; AddKeydownListener].
Proof.
  intros t Ho Hm Hr He Hcan Hd Hc. subst t.
  destruct p as [doc b a s fo v er me ob dp rp tr]. cbn in Ho, Hm, Hr, He, Hd, Hc. subst.
  unfold openWith, newCalls. symex.
  rewrite (bool_decide_eq_true_2 (e ∈ doc)) by done. rewrite Hcan. symex.
  rewrite (bool_decide_eq_true_2 (Modal.dialog ∈ doc)) by done. symex.
  rewrite selector_dialog. cbn [head]. symex.
  rewrite (bool_decide_eq_true_2 (Modal.closeButton ∈ doc)) by done.
  cbn [canFocus Modal.closeButton Modal.node]. symex.
  split; [done|]. split; [done|].
  rewrite <- !app_assoc. apply drop_trace.
Qed.

(** The active id is a declared one after any events at all, as long as
    the observer reports on targets it observes. *)
Lemma active_declared_after_any_events children doc b (evs : list Event) :
  Forall (λ ev, ∀ entries, ev = Intersect entries →
                Forall (λ e, target e ∈ observed (mount doc b)) entries) evs →
  active (run children evs (mount doc b)) ∈ sections.
Proof.
  intros Hevs.
  assert (Ho : Forall (λ e, idAttr e ∈ sections) (observed (mount doc b)) ∧
               active (mount doc b) = "home").
  { apply (observeSections_keeps sections (reflexivity _)
      {| connected := doc; body := b; activeElement := b;
         active := "home"; fishboneOpen := false;
         values := initialValues; errors := ∅;
         modalEffect := None; observed := [];
         defaultPrevented := false; renderPending := false; trace := [] |}). by split. }
  destruct Ho as [Ho Ha].
  eapply (run_keeps children
            (λ q, observed q = observed (mount doc b) ∧ active q ∈ sections)).
  - eapply Forall_impl; [exact Hevs|]. intros ev Hev. cbn in Hev.
    destruct ev; try (apply tracker_keeps; [|by apply dispatch_tracker];
                      intros p q [H1 H2] [H3 H4]; split; congruence).
    apply intersect_keeps; [done|]. by apply Hev.
  - split; [done|]. rewrite Ha. by left.
Qed.

(** ** Examples: the pattern, [trim] and two sessions *)

Lemma trimStart_nil_iff (s : jsstring) :
  trimStart s = [] ↔ Forall (λ c, isWhiteSpace c = true) s.
Proof.
  induction s as [|c s IH]; cbn; [by split|].
  destruct (isWhiteSpace c) eqn:Hc.
  - rewrite IH. split; [by constructor|]. by inversion 1.
  - split; [done|]. inversion 1. congruence.
Qed.

Lemma trimStart_keeps (s : jsstring) :
  trimStart s = [] ∨ ∃ c, c ∈ trimStart s ∧ isWhiteSpace c = false.
Proof.
  induction s as [|c s IH]; cbn; [by left|].
  destruct (isWhiteSpace c) eqn:Hc; [done|].
  right. exists c. split; [left|done].
Qed.

(** [trim] leaves nothing exactly when the string is all white space. *)
Lemma trim_nil_iff (s : jsstring) :
  trim s = [] ↔ Forall (λ c, isWhiteSpace c = true) s.
Proof.
  rewrite <- trimStart_nil_iff. unfold trim, trimEnd. split.
  - intros H. apply (f_equal (@rev N)) in H. rewrite rev_involutive in H. cbn in H.
    apply trimStart_nil_iff in H. rewrite Forall_forall in H.
    destruct (trimStart_keeps s) as [Hs|(c & Hc & Hw)]; [done|].
    rewrite (H c) in Hw; [done|]. by rewrite list_elem_of_In, <- in_rev, <- list_elem_of_In.
  - intros ->. reflexivity.
Qed.

Example emailRx_examples :
  test emailRx (u "ada@uws.ac.uk") = true ∧
  test emailRx (u "a@b.c") = true ∧
  test emailRx (u "not-an-email") = false ∧
  test emailRx (u "a@b") = false ∧
  test emailRx (u "a b@c.d") = false ∧
  test emailRx (u "a@b@c.d") = false ∧
  test emailRx (u "@b.c") = false ∧
  test emailRx (u "a@b.") = false.
Proof. vm_compute. repeat split. Qed.

Example trim_examples :
  trim (u "  Ada Lovelace ") = u "Ada Lovelace" ∧
  trim (u "   ") = [] ∧
  trim [0xA0; 0x41; 0x2003; 0xFEFF]%N = [0x41]%N.
Proof. vm_compute. repeat split. Qed.

(** Open from the demo button, Tab, Shift+Tab, Escape: focus is back on
    the demo button and these are the calls that were made. *)
Example modal_session :
  let p := run [fishboneFrame]
               [ClickTryLiveDemo; tabKey false; tabKey true; escapeKey false] focusedPage in
  activeElement p = Some demoButton ∧
  fishboneOpen p = false ∧
  newCalls focusedPage p =
    [ Focus Modal.closeButton; AddKeydownListener;
      PreventDefault; Focus Modal.closeButton;
      PreventDefault; Focus Modal.closeButton;
      OnClose; RemoveKeydownListener; Focus demoButton ].
Proof. vm_compute. repeat split. Qed.

(** The band enters activities, the visitor jumps to contact, the band
    enters contact. *)
Example scroll_session :
  let activities := pageNode 2 "section" "activities" false in
  let contact := pageNode 7 "section" "contact" false in
  let p1 := run [fishboneFrame]
                [Intersect [{| target := activities; isIntersecting := true |}]] samplePage in
  let p2 := run [fishboneFrame] [Navigate "contact"] p1 in
  let p3 := run [fishboneFrame]
                [Intersect [{| target := contact; isIntersecting := true |}]] p2 in
  active p1 = "activities" ∧
  active p2 = "activities" ∧
  newCalls p1 p2 = [ScrollIntoView contact "smooth" "start"] ∧
  active p3 = "contact".
Proof. vm_compute. repeat split. Qed.

(** ** [cx] *)

Lemma joinString_truthy (v : JsValue) : toBoolean v = true → joinString v ≠ [].
Proof. destruct v as [[|c s]|[]| |]; cbn; done. Qed.

Lemma join_cons (sep : jsstring) (v : JsValue) (l : list JsValue) :
  l ≠ [] → join sep (v :: l) = joinString v ++ sep ++ join sep l.
Proof. by destruct l. Qed.

Lemma join_app (sep : jsstring) (l1 l2 : list JsValue) :
  l1 ≠ [] → l2 ≠ [] → join sep (l1 ++ l2) = join sep l1 ++ sep ++ join sep l2.
Proof.
  intros H1 H2. induction l1 as [|v l1 IH]; [done|].
  destruct l1 as [|w l1].
  - cbn [app]. by rewrite join_cons.
  - rewrite <- app_comm_cons, join_cons by done.
    rewrite IH by done. rewrite (join_cons sep v (w :: l1)) by done.
    by rewrite <- !app_assoc.
Qed.

Lemma join_truthy (sep : jsstring) (l : list JsValue) :
  l ≠ [] → Forall (λ v, toBoolean v = true) l → join sep l ≠ [].
Proof.
  intros Hne Hl. destruct l as [|v l]; [done|].
  apply Forall_cons in Hl as [Hv _]. apply joinString_truthy in Hv.
  destruct l; cbn; [done|]. by destruct (joinString v).
Qed.

Lemma filter_truthy (c : list JsValue) :
  Forall (λ v, toBoolean v = true) (List.filter toBoolean c).
Proof. apply Forall_forall. intros v Hv. apply list_elem_of_In, filter_In in Hv. tauto. Qed.

Lemma cx_one (s : jsstring) : cx [VString s] = s.
Proof. unfold cx. cbn. by destruct s. Qed.

Lemma cx_nil_falsy (c : list JsValue) :
  cx c = [] → List.filter toBoolean c = [].
Proof.
  unfold cx. intros H. destruct (List.filter toBoolean c) as [|v l] eqn:Hf; [done|].
  exfalso. revert H. apply join_truthy; [done|]. rewrite <- Hf. apply filter_truthy.
Qed.

(** [cx] gives the empty string exactly when every argument is falsy. *)
Theorem cx_empty_iff (c : list JsValue) :
  cx c = [] ↔ Forall (λ v, toBoolean v = false) c.
Proof.
  split.
  - intros H. apply cx_nil_falsy in H.
    apply Forall_forall. intros v Hv. apply not_true_is_false. intros Hb.
    assert (Hin : In v (List.filter toBoolean c)).
    { apply filter_In. split; [by apply list_elem_of_In|done]. }
    by rewrite H in Hin.
  - intros H. unfold cx. induction H as [|v c Hv _ IH]; [done|]. cbn. by rewrite Hv.
Qed.

(** A class string built by [cx] can be passed on to [cx]: the result is
    what [cx] gives for all the arguments in one call. *)
Theorem cx_nested (xs ys zs : list JsValue) :
  cx (xs ++ VString (cx ys) :: zs) = cx (xs ++ ys ++ zs).
Proof.
  unfold cx. rewrite !List.filter_app. cbn [List.filter toBoolean].
  fold (cx ys).
  destruct (truthy (cx ys)) eqn:Ht.
  - assert (Hy : List.filter toBoolean ys ≠ []).
    { intros Hy. unfold cx in Ht. by rewrite Hy in Ht. }
    set (X := List.filter toBoolean xs). set (Y := List.filter toBoolean ys) in *.
    set (Z := List.filter toBoolean zs).
    assert (HYZ : join (u " ") (VString (cx ys) :: Z) = join (u " ") (Y ++ Z)).
    { destruct Z as [|z Z].
      - by rewrite app_nil_r.
      - rewrite join_cons, join_app by done. done. }
    destruct X as [|x X]; [exact HYZ|].
    rewrite (join_app _ (x :: X) (VString (cx ys) :: Z)) by done.
    rewrite (join_app _ (x :: X) (Y ++ Z)); [by rewrite HYZ|done|].
    intros H. by apply app_eq_nil in H as [H _].
  - apply truthy_false, cx_nil_falsy in Ht. by rewrite Ht.
Qed.

(** ** [usePrefersReducedMotion] *)

Lemma Motion_change_listening now m : listening (Motion_change now m) = listening m.
Proof. unfold Motion_change. by destruct (listening m) eqn:H; cbn. Qed.

Lemma Motion_fold_inv (mq0 : MediaQueryList) (changes : list bool) (m : Motion) :
  listening m = hasAddEventListener mq0 →
  hasAddEventListener (query m) = hasAddEventListener mq0 →
  prefers m = (if hasAddEventListener mq0 then matches (query m) else matches mq0) →
  let m' := fold_left (λ m now, Motion_change now m) changes m in
  prefers m' = (if hasAddEventListener mq0 then matches (query m') else matches mq0) ∧
  matches (query m') = default (matches (query m)) (last changes).
Proof.
  revert m. induction changes as [|now changes IH]; intros m Hl Hq Hp; [done|].
  cbn [fold_left]. cbn zeta.
  destruct (IH (Motion_change now m)) as [H1 H2].
  - by rewrite Motion_change_listening.
  - unfold Motion_change. by destruct (listening m).
  - unfold Motion_change. rewrite Hl. destruct (hasAddEventListener mq0); cbn; [done|exact Hp].
  - split; [exact H1|]. rewrite H2.
    replace (matches (query (Motion_change now m))) with now
      by (unfold Motion_change; by destruct (listening m)).
    destruct changes as [|c changes]; [done|]. rewrite last_cons_cons.
    destruct (last (c :: changes)) eqn:E; [done|]. by apply last_None in E.
Qed.

(** With [addEventListener] on the query object, the state of the hook is
    what the query matches now, after the effect and after every change;
    without it (the call is made with [?.]) the state stays what the query
    matched when the effect ran. *)
Theorem usePrefersReducedMotion_tracks (mq : MediaQueryList) (changes : list bool) :
  prefers (usePrefersReducedMotion mq changes) =
    (if hasAddEventListener mq
     then default (matches mq) (last changes)
     else matches mq) ∧
  matches (query (usePrefersReducedMotion mq changes)) = default (matches mq) (last changes).
Proof.
  unfold usePrefersReducedMotion.
  destruct (Motion_fold_inv mq changes (Motion_effect (Motion_initial mq)))
    as [H1 H2]; try done.
  - cbn. by destruct (hasAddEventListener mq).
  - split; [|exact H2]. rewrite H1. destruct (hasAddEventListener mq); [exact H2|done].
Qed.

(** ** The pattern of the address *)

Lemma lang_void_inv (w : jsstring) : ¬ lang Void w.
Proof. inversion 1. Qed.

Lemma lang_eps_inv (w : jsstring) : lang Eps w → w = [].
Proof. by inversion 1. Qed.

Lemma lang_cls_inv (f : N → bool) (w : jsstring) :
  lang (Cls f) w → ∃ c, w = [c] ∧ f c = true.
Proof. inversion 1; subst; eauto. Qed.

Lemma lang_seq_inv (r s : Re) (w : jsstring) :
  lang (Seq r s) w → ∃ x y, w = x ++ y ∧ lang r x ∧ lang s y.
Proof. inversion 1; subst; eauto. Qed.

Lemma lang_alt_inv (r s : Re) (w : jsstring) :
  lang (Alt r s) w → lang r w ∨ lang s w.
Proof. inversion 1; subst; eauto. Qed.

Lemma nullable_lang (r : Re) : nullable r = true ↔ lang r [].
Proof.
  induction r as [| |f|r IHr s IHs|r IHr s IHs|r IHr]; cbn.
  - split; [done|]. intros H. by apply lang_void_inv in H.
  - split; [constructor|done].
  - split; [done|]. intros H. by apply lang_cls_inv in H as (c & ? & _).
  - rewrite andb_true_iff, IHr, IHs. split.
    + intros [Hr Hs]. by apply (lang_seq r s [] []).
    + intros H. apply lang_seq_inv in H as (x & y & Heq & Hx & Hy).
      symmetry in Heq. apply app_eq_nil in Heq as [-> ->]. done.
  - rewrite orb_true_iff, IHr, IHs. split.
    + intros [H|H]; [by apply lang_alt_l|by apply lang_alt_r].
    + apply lang_alt_inv.
  - split; [constructor|done].
Qed.

Lemma lang_star_cons_inv (r : Re) (c : N) (s : jsstring) :
  lang (Star r) (c :: s) →
  ∃ x y, s = x ++ y ∧ lang r (c :: x) ∧ lang (Star r) y.
Proof.
  intros H. remember (Star r) as r' eqn:Hr. remember (c :: s) as w eqn:Hw.
  revert Hr Hw. induction H as [| | | | | |r0 x y Hx _ Hy IHy]; try done.
  intros [= ->] Hw. destruct x as [|c' x]; cbn in Hw.
  - by apply IHy.
  - injection Hw as -> <-. eauto.
Qed.

Lemma deriv_lang (r : Re) (c : N) (s : jsstring) :
  lang (deriv c r) s ↔ lang r (c :: s).
Proof.
  revert s. induction r as [| |f|r IHr r2 IHs|r IHr r2 IHs|r IHr]; intros s; cbn.
  - split; intros H; by apply lang_void_inv in H.
  - split; intros H; [by apply lang_void_inv in H|by apply lang_eps_inv in H].
  - destruct (f c) eqn:Hf; split; intros H.
    + apply lang_eps_inv in H as ->. by constructor.
    + apply lang_cls_inv in H as (c' & [= -> ->] & _). constructor.
    + by apply lang_void_inv in H.
    + apply lang_cls_inv in H as (c' & [= -> ->] & ?). congruence.
  - assert (Hseq : lang (Seq (deriv c r) r2) s → lang (Seq r r2) (c :: s)).
    { intros H. apply lang_seq_inv in H as (x & y & -> & Hx & Hy).
      apply IHr in Hx. by apply (lang_seq r r2 (c :: x) y). }
    assert (Hinv : lang (Seq r r2) (c :: s) →
                   lang (Seq (deriv c r) r2) s ∨ (lang r [] ∧ lang r2 (c :: s))).
    { intros H. apply lang_seq_inv in H as (x & y & Heq & Hx & Hy).
      destruct x as [|c' x]; cbn in Heq.
      - right. by subst.
      - injection Heq as -> ->. left. apply lang_seq; [by apply IHr|done]. }
    destruct (nullable r) eqn:Hn; split; intros H.
    + apply lang_alt_inv in H as [H|H]; [by apply Hseq|].
      apply nullable_lang in Hn. apply (lang_seq r r2 [] (c :: s)); [done|]. by apply IHs.
    + destruct (Hinv H) as [H'|[_ H']]; [by apply lang_alt_l|].
      apply lang_alt_r. by apply IHs.
    + by apply Hseq.
    + destruct (Hinv H) as [H'|[H' _]]; [done|].
      apply nullable_lang in H'. congruence.
  - split; intros H; apply lang_alt_inv in H as [H|H];
      (apply lang_alt_l; by apply IHr) || (apply lang_alt_r; by apply IHs).
  - split; intros H.
    + apply lang_seq_inv in H as (x & y & -> & Hx & Hy).
      apply IHr in Hx. by apply (lang_star_cons r (c :: x) y).
    + apply lang_star_cons_inv in H as (x & y & -> & Hx & Hy).
      apply lang_seq; [by apply IHr|done].
Qed.

(** The matcher decides the language of the pattern. *)
Lemma test_lang (r : Re) (s : jsstring) : test r s = true ↔ lang r s.
Proof.
  unfold test. revert r. induction s as [|c s IH]; intros r; cbn.
  - apply nullable_lang.
  - rewrite IH. apply deriv_lang.
Qed.

Lemma lang_star_cls (f : N → bool) (s : jsstring) :
  lang (Star (Cls f)) s ↔ Forall (λ c, f c = true) s.
Proof.
  split.
  - intros H. remember (Star (Cls f)) as r eqn:Hr. revert Hr.
    induction H as [| | | | | |r0 x y Hx _ Hy IHy]; try done.
    intros [= ->]. apply lang_cls_inv in Hx as (c & -> & Hc). cbn.
    constructor; [done|]. by apply IHy.
  - induction 1 as [|c s Hc _ IH]; [constructor|].
    apply (lang_star_cons (Cls f) [c] s); [by constructor|done].
Qed.

Lemma lang_plus_cls (f : N → bool) (s : jsstring) :
  lang (Plus (Cls f)) s ↔ s ≠ [] ∧ Forall (λ c, f c = true) s.
Proof.
  unfold Plus. split.
  - intros H. apply lang_seq_inv in H as (x & y & -> & Hx & Hy).
    apply lang_cls_inv in Hx as (c & -> & Hc).
    apply lang_star_cls in Hy. split; [done|]. by constructor.
  - intros [Hne Hs]. destruct Hs as [|c s Hc Hs]; [done|].
    apply (lang_seq (Cls f) _ [c] s); [by constructor|]. by apply lang_star_cls.
Qed.

Lemma lang_chr (c : N) (s : jsstring) : lang (Chr c) s ↔ s = [c].
Proof.
  unfold Chr. split.
  - intros H. apply lang_cls_inv in H as (c' & -> & Hc). by apply N.eqb_eq in Hc as ->.
  - intros ->. constructor. apply N.eqb_refl.
Qed.

Lemma emailRx_parts (s : jsstring) :
  test emailRx s = true →
  ∃ a b c, s = a ++ [64%N] ++ b ++ [46%N] ++ c ∧
           a ≠ [] ∧ b ≠ [] ∧ c ≠ [] ∧
           Forall (λ x, notSpaceOrAt x = true) (a ++ b ++ c).
Proof.
  rewrite test_lang. unfold emailRx. intros H.
  apply lang_seq_inv in H as (a & r1 & -> & Ha & H).
  apply lang_seq_inv in H as (at_ & r2 & -> & Hat & H).
  apply lang_seq_inv in H as (b & r3 & -> & Hb & H).
  apply lang_seq_inv in H as (dot & c & -> & Hdot & Hc).
  apply lang_chr in Hat as ->. apply lang_chr in Hdot as ->.
  apply lang_plus_cls in Ha as [? ?], Hb as [? ?], Hc as [? ?].
  exists a, b, c. rewrite !Forall_app. done.
Qed.

(** The pattern accepts exactly the strings made of a run, an at sign, a
    run, a dot and a run, where a run is one or more code units that are
    neither white space nor an at sign (the last two runs may hold dots). *)
Theorem emailRx_accepts_iff (s : jsstring) :
  test emailRx s = true ↔
  ∃ a b c, s = a ++ [64%N] ++ b ++ [46%N] ++ c ∧
           a ≠ [] ∧ b ≠ [] ∧ c ≠ [] ∧
           Forall (λ x, notSpaceOrAt x = true) (a ++ b ++ c).
Proof.
  split; [apply emailRx_parts|].
  intros (a & b & c & -> & Ha & Hb & Hc & Hall).
  rewrite !Forall_app in Hall. destruct Hall as (Fa & Fb & Fc).
  apply test_lang. unfold emailRx.
  apply lang_seq; [by apply lang_plus_cls|].
  apply lang_seq; [by apply lang_chr|].
  apply lang_seq; [by apply lang_plus_cls|].
  apply lang_seq; [by apply lang_chr|]. by apply lang_plus_cls.
Qed.

Lemma emailRx_no_space (s : jsstring) (x : N) :
  test emailRx s = true → x ∈ s → isWhiteSpace x = false.
Proof.
  intros Ht Hx. apply emailRx_parts in Ht as (a & b & c & -> & _ & _ & _ & Hall).
  rewrite !Forall_app in Hall. destruct Hall as (Fa & Fb & Fc).
  rewrite Forall_forall in Fa, Fb, Fc.
  assert (Hok : ∀ y, notSpaceOrAt y = true → isWhiteSpace y = false).
  { intros y. unfold notSpaceOrAt. by destruct (isWhiteSpace y). }
  rewrite !elem_of_app, !list_elem_of_singleton in Hx.
  destruct Hx as [?|[->|[?|[->|?]]]]; try (by apply Hok; auto). all: by vm_compute.
Qed.

Lemma emailRx_not_blank (s : jsstring) :
  test emailRx s = true → trim s ≠ [].
Proof.
  intros Ht Hb. apply trim_nil_iff in Hb.
  pose proof Ht as Hl. apply emailRx_parts in Hl as (a & b & c & -> & _).
  rewrite Forall_forall in Hb.
  assert (H64 : isWhiteSpace 64 = true) by (apply Hb; rewrite !elem_of_app; right; left; left).
  by vm_compute in H64.
Qed.

(** ** The contact form: which errors, and editing *)

Lemma submit_errors (p : Page) : errors (exec submit p) = fieldErrors (values p).
Proof. unfold exec. rewrite submit_eq. cbn. by destruct (bool_decide _). Qed.

Lemma fieldErrors_lookup (v : Values) :
  fieldErrors v !! "name" =
    (if truthy (trim (name v)) then None else Some "Please enter your name.") ∧
  fieldErrors v !! "email" =
    (if truthy (trim (email v)) && test emailRx (email v) then None
     else Some "Enter a valid email.") ∧
  fieldErrors v !! "organization" =
    (if truthy (trim (organization v)) then None else Some "Organization is required.") ∧
  fieldErrors v !! "website" =
    (if truthy (website v) then Some "Spam detected." else None) ∧
  ∀ k, is_Some (fieldErrors v !! k) → k ∈ ["name"; "email"; "organization"; "website"].
Proof.
  unfold fieldErrors.
  destruct (truthy (trim (name v))), (truthy (trim (email v))), (test emailRx (email v)),
    (truthy (trim (organization v))), (truthy (website v)); cbn;
    (split; [by simplify_map_eq|]); (split; [by simplify_map_eq|]);
    (split; [by simplify_map_eq|]); (split; [by simplify_map_eq|]);
    intros k [m Hk];
    (destruct (decide (k = "name")) as [->|?]; [set_solver|]);
    (destruct (decide (k = "email")) as [->|?]; [set_solver|]);
    (destruct (decide (k = "organization")) as [->|?]; [set_solver|]);
    (destruct (decide (k = "website")) as [->|?]; [set_solver|]);
    by simplify_map_eq.
Qed.

(** After a submission the errors object holds, whatever it held before: a
    name error exactly when the name is all white space, an email error
    exactly when the address does not match the pattern (the emptiness test
    adds nothing to it), an organization error exactly when the organization
    is all white space, a website error exactly when the honeypot is not
    empty; and no other key. *)
Theorem submit_errors_iff (p : Page) :
  (is_Some (errors (exec submit p) !! "name") ↔
     Forall (λ c, isWhiteSpace c = true) (name (values p))) ∧
  (is_Some (errors (exec submit p) !! "email") ↔
     test emailRx (email (values p)) = false) ∧
  (is_Some (errors (exec submit p) !! "organization") ↔
     Forall (λ c, isWhiteSpace c = true) (organization (values p))) ∧
  (is_Some (errors (exec submit p) !! "website") ↔ website (values p) ≠ []) ∧
  (∀ k, is_Some (errors (exec submit p) !! k) →
        k ∈ ["name"; "email"; "organization"; "website"]).
Proof.
  rewrite submit_errors.
  destruct (fieldErrors_lookup (values p)) as (Hn & He & Ho & Hw & Hk).
  rewrite Hn, He, Ho, Hw. rewrite <- !trim_nil_iff, <- !truthy_false.
  split_and!; [| | | |exact Hk].
  - destruct (truthy (trim (name (values p)))); split; (done || by inversion 1).
  - destruct (test emailRx (email (values p))) eqn:Ht.
    + apply emailRx_not_blank, truthy_true in Ht. rewrite Ht. cbn.
      split; (done || by inversion 1).
    + rewrite andb_false_r. split; eauto.
  - destruct (truthy (trim (organization (values p)))); split; (done || by inversion 1).
  - destruct (truthy (website (values p))); split; (done || eauto || by inversion 1).
Qed.

Lemma withField_get (f g : Field) (x : jsstring) (v : Values) :
  getField g (withField f x v) = if decide (g = f) then x else getField g v.
Proof. by destruct f, g. Qed.


Global Instance sameReact_refl : Reflexive sameReact.
Proof. by intros p. Qed.

Global Instance sameReact_trans : Transitive sameReact.
Proof. intros p q r (?&?&?&?&?) (?&?&?&?&?). unfold sameReact. split_and!; congruence. Qed.

Lemma focus_react e : preserves sameReact (focus e).
Proof. unfold focus, call. frame; by apply preserves_modify. Qed.

Lemma call_react e : preserves sameReact (call e).
Proof. unfold call. by apply preserves_modify. Qed.

Lemma effect_react children o : preserves sameReact (Modal.effect children o).
Proof.
  unfold Modal.effect, Modal.dialogRef_current, addKeydownListener, call.
  frame; auto using focus_react; by apply preserves_modify.
Qed.

Lemma cleanup_react t : preserves sameReact (Modal.cleanup t).
Proof.
  unfold Modal.cleanup, removeKeydownListener, call.
  frame; auto using focus_react; by apply preserves_modify.
Qed.

(** A commit changes the document, focus and the installed effect, never
    the state of the hooks. *)
Lemma commit_react children : preserves sameReact (commit children).
Proof.
  unfold commit, removeNodes, insertNodes.
  frame; auto using effect_react, cleanup_react; by apply preserves_modify.
Qed.

Lemma dispatch_change_eq children (f : Field) (x : jsstring) (p : Page) :
  dispatch children (Change f x) p =
  commit children (with_renderPending true
                     (with_values (withField f x (values p))
                        (with_defaultPrevented false p))).
Proof. reflexivity. Qed.

(** Editing an input sets that field and nothing else: every other field
    and the interests read as before, and the errors object is not touched,
    so an error shown for the field stays until the next submission. *)
Theorem change_sets_one_field children (f : Field) (x : jsstring) (p : Page) :
  getField f (values (exec (dispatch children (Change f x)) p)) = x ∧
  (∀ g, g ≠ f →
     getField g (values (exec (dispatch children (Change f x)) p)) = getField g (values p)) ∧
  interests (values (exec (dispatch children (Change f x)) p)) = interests (values p) ∧
  errors (exec (dispatch children (Change f x)) p) = errors p ∧
  active (exec (dispatch children (Change f x)) p) = active p ∧
  fishboneOpen (exec (dispatch children (Change f x)) p) = fishboneOpen p.
Proof.
  unfold exec. rewrite dispatch_change_eq.
  destruct (commit_react children
              (with_renderPending true
                 (with_values (withField f x (values p)) (with_defaultPrevented false p))))
    as (Hv & He & Ha & Ho & _).
  unfold exec in *. rewrite Hv, He, Ha, Ho. cbn. split_and!; try done.
  - rewrite withField_get. by rewrite decide_True.
  - intros g Hg. rewrite withField_get. by rewrite decide_False.
  - by destruct f.
Qed.

(** ** The scroll spy: what is observed, which report wins *)

Lemma observeSections_step (i : string) (p : Page) :
  (el ← getElementById i; guarded el observe) p =
  (Normal tt,
   match elementWithId i (connected p) with
   | Some e => with_observed (if bool_decide (e ∈ observed p) then observed p
                              else observed p ++ [e])
                 (with_trace (trace p ++ [Observe e]) p)
   | None => p
   end).
Proof.
  unfold getElementById, observe. unfold_m. cbn.
  destruct (elementWithId i (connected p)) as [e|]; [|done]. cbn.
  by case_bool_decide.
Qed.

Lemma forEach_cons_eq {A} (f : A → M unit) (x : A) (l : list A) (p q : Page) :
  f x p = (Normal tt, q) → forEach (x :: l) f p = forEach l f q.
Proof. intros H. cbn. unfold mbind, M_bind. by rewrite H. Qed.

Lemma observe_forEach (ids : list string) (p : Page) :
  let q := exec (forEach ids (λ i, el ← getElementById i; guarded el observe)) p in
  returns (forEach ids (λ i, el ← getElementById i; guarded el observe)) p ∧
  connected q = connected p ∧
  active q = active p ∧
  trace q = trace p ++ (Observe <$> omap (λ i, elementWithId i (connected p)) ids) ∧
  ∀ el, el ∈ observed q ↔
        el ∈ observed p ∨ ∃ i, i ∈ ids ∧ elementWithId i (connected p) = Some el.
Proof.
  revert p. induction ids as [|i ids IH]; intros p; cbn zeta.
  - unfold returns, exec. cbn. rewrite app_nil_r. split_and!; eauto.
    intros el. split; [by left|]. intros [?|(i & Hi & _)]; [done|]. by apply elem_of_nil in Hi.
  - unfold returns, exec.
    rewrite (forEach_cons_eq _ i ids p _ (observeSections_step i p)).
    set (p1 := match elementWithId i (connected p) with Some _ => _ | None => p end).
    assert (Hc : connected p1 = connected p) by (subst p1; by destruct (elementWithId i _)).
    assert (Ha : active p1 = active p) by (subst p1; by destruct (elementWithId i _)).
    destruct (IH p1) as (Hr & Hc' & Ha' & Ht' & Ho'). unfold returns, exec in *.
    rewrite Hc in *. split_and!; [done|done|congruence| |].
    + rewrite Ht'. cbn [omap list_omap]. subst p1.
      destruct (elementWithId i (connected p)) as [e|]; cbn; [|done].
      by rewrite <- app_assoc.
    + intros el. rewrite Ho'. subst p1. split.
      * intros [Hel|(j & Hj & Hjel)].
        -- destruct (elementWithId i (connected p)) as [e|] eqn:He; [|by left].
           cbn in Hel. case_bool_decide; [by left|].
           apply elem_of_app in Hel as [?|Hel]; [by left|].
           apply list_elem_of_singleton in Hel as ->. right. exists i. split; [left|done].
        -- right. exists j. split; [by right|done].
      * intros [Hel|(j & Hj & Hjel)].
        -- left. destruct (elementWithId i (connected p)) as [e|]; [|done]. cbn.
           case_bool_decide; [done|]. apply elem_of_app. by left.
        -- apply elem_of_cons in Hj as [->|Hj]; [|right; eauto].
           left. rewrite Hjel. cbn. case_bool_decide; [done|].
           apply elem_of_app. right. by left.
Qed.

Lemma mount_observed (doc : list Element) (b : option Element) :
  connected (mount doc b) = doc ∧
  active (mount doc b) = "home" ∧
  trace (mount doc b) = Observe <$> omap (λ i, elementWithId i doc) sections ∧
  ∀ el, el ∈ observed (mount doc b) ↔
        ∃ i, i ∈ sections ∧ elementWithId i doc = Some el.
Proof.
  unfold mount, observeSections.
  match goal with |- context [exec _ ?p0] =>
    destruct (observe_forEach sections p0) as (_ & Hc & Ha & Ht & Ho) end.
  rewrite Hc, Ha, Ht. cbn [connected active trace app]. split_and!; try done.
  intros el. rewrite Ho. cbn [observed connected]. split; [|by right].
  intros [H|H]; [by apply elem_of_nil in H|done].
Qed.

(** Mounting puts under observation exactly the elements that
    [getElementById] finds for the declared ids, with one [observe] call
    each in the order of the declaration; an id with no element is skipped. *)
Theorem mount_observes_present_sections (doc : list Element) (b : option Element) :
  trace (mount doc b) = Observe <$> omap (λ i, elementWithId i doc) sections ∧
  (∀ el, el ∈ observed (mount doc b) ↔
         ∃ i, i ∈ sections ∧ elementWithId i doc = Some el) ∧
  (∀ i, elementWithId i doc = None →
        ∀ el, el ∈ observed (mount doc b) → idAttr el ≠ i).
Proof.
  destruct (mount_observed doc b) as (_ & _ & Ht & Ho). split_and!; [done|done|].
  intros i Hi el Hel Hid. apply Ho in Hel as (j & _ & Hj).
  pose proof (elementWithId_id _ _ _ Hj) as Hjid. congruence.
Qed.

Global Instance sameForm_refl : Reflexive sameForm.
Proof. by intros p. Qed.

Global Instance sameForm_trans : Transitive sameForm.
Proof.
  intros p q r (?&?&?&?&?&?&?&?) (?&?&?&?&?&?&?&?). unfold sameForm. split_and!; congruence.
Qed.

Lemma observerCallback_last (entries : list Entry) (p : Page) :
  returns (observerCallback entries) p ∧
  active (exec (observerCallback entries) p) = default (active p) (lastIntersecting entries) ∧
  sameForm p (exec (observerCallback entries) p).
Proof.
  revert p. induction entries as [|e entries IH]; intros p.
  - unfold returns, exec. cbn. split_and!; eauto. done.
  - unfold returns, exec, observerCallback. unfold lastIntersecting. cbn [List.filter].
    destruct (isIntersecting e) eqn:Hi.
    + set (p1 := if bool_decide (active p = idAttr (target e)) then p
                 else with_renderPending true (with_active (idAttr (target e)) p)).
      rewrite (forEach_cons_eq _ e entries p p1) by (by rewrite Hi).
      assert (Ha : active p1 = idAttr (target e)).
      { subst p1. by case_bool_decide. }
      assert (Hf : sameForm p p1).
      { subst p1. by case_bool_decide. }
      destruct (IH p1) as (Hr & Hl & Hs).
      unfold returns, exec, observerCallback, lastIntersecting in Hr, Hl, Hs.
      split_and!; [done| |by etrans].
      rewrite Hl, Ha. cbn [fmap list_fmap].
      destruct (List.filter isIntersecting entries) as [|e' l]; [done|].
      rewrite fmap_cons, last_cons_cons.
      destruct (last (idAttr (target e') :: _)) eqn:E; [done|]. by apply last_None in E.
    + rewrite (forEach_cons_eq _ e entries p p) by (by rewrite Hi).
      destruct (IH p) as (Hr & Hl & Hs).
      unfold returns, exec, observerCallback, lastIntersecting in Hr, Hl, Hs. done.
Qed.

Lemma dispatch_intersect_eq children (entries : list Entry) (p : Page) :
  dispatch children (Intersect entries) p =
  commit children (exec (observerCallback entries) (with_defaultPrevented false p)).
Proof.
  destruct (observerCallback_last entries (with_defaultPrevented false p)) as ([[] Hr] & _).
  unfold dispatch, handle, defaultAction, exec. unfold_m. cbn.
  destruct (observerCallback entries (with_defaultPrevented false p)) as [o q].
  cbn in Hr. by subst o.
Qed.

(** Within one report the last intersecting entry decides: the active id
    becomes the id of its target, whatever the entries before it set; a
    report with no intersecting entry leaves the active id as it was. *)
Theorem observer_last_write_wins children (entries : list Entry) (p : Page) :
  active (exec (dispatch children (Intersect entries)) p) =
    default (active p) (lastIntersecting entries).
Proof.
  transitivity (active (exec (observerCallback entries) (with_defaultPrevented false p))).
  - unfold exec at 1. rewrite dispatch_intersect_eq. apply commit_tracker.
  - by destruct (observerCallback_last entries (with_defaultPrevented false p)) as (_ & -> & _).
Qed.

Lemma mount_closed (doc : list Element) (b : option Element) : closed (mount doc b).
Proof.
  unfold mount, observeSections.
  match goal with |- context [exec _ ?p0] => set (P := p0) end.
  assert (H : preserves (keeps closed) (forEach sections
                (λ i, el ← getElementById i; guarded el observe))).
  { frame_forEach. intros p Hp. unfold exec. rewrite observeSections_step. cbn.
    by destruct (elementWithId x (connected p)). }
  by apply H.
Qed.

Lemma navigate_closed_eq children (i : string) (q : Page) :
  closed q →
  dispatch children (Navigate i) q = (Normal tt, exec (jump i) (with_defaultPrevented false q)).
Proof.
  intros (Ho & Hm & Hr). destruct q as [doc b a s fo v er me ob dp rp tr].
  cbn in Ho, Hm, Hr. subst. symex. by destruct (elementWithId i doc).
Qed.

(** Navigating to a declared section that is in the document requests one
    smooth scroll to the start of its element and leaves the active id
    alone; that element is one the observer watches, and once the observer
    reports it as intersecting, the active id is the id navigated to. *)
Theorem navigate_then_report children (doc : list Element) (b : option Element)
    (i : string) (el : Element) :
  i ∈ sections → elementWithId i doc = Some el →
  newCalls (mount doc b) (exec (dispatch children (Navigate i)) (mount doc b))
    = [ScrollIntoView el "smooth" "start"] ∧
  active (exec (dispatch children (Navigate i)) (mount doc b)) = "home" ∧
  el ∈ observed (exec (dispatch children (Navigate i)) (mount doc b)) ∧
  active (run children [Navigate i; Intersect [{| target := el; isIntersecting := true |}]]
            (mount doc b)) = i.
Proof.
  intros Hi Hel.
  destruct (mount_observed doc b) as (Hc & Ha & _ & Ho).
  assert (Hin : el ∈ observed (mount doc b)) by (apply Ho; eauto).
  cbn [run fold_left].
  assert (Hlast : ∀ q, active (exec (dispatch children
                     (Intersect [{| target := el; isIntersecting := true |}])) q)
                   = idAttr el).
  { intros q.
    transitivity (active (exec (observerCallback
                                  [{| target := el; isIntersecting := true |}])
                               (with_defaultPrevented false q))).
    - unfold exec at 1. rewrite dispatch_intersect_eq. apply commit_tracker.
    - by destruct (observerCallback_last [{| target := el; isIntersecting := true |}]
                     (with_defaultPrevented false q)) as (_ & -> & _). }
  rewrite Hlast.
  unfold exec, newCalls. rewrite (navigate_closed_eq children i _ (mount_closed doc b)).
  cbn [snd]. unfold exec. rewrite jump_eq. cbn [connected with_defaultPrevented].
  rewrite Hc, Hel. cbn. rewrite drop_trace. split_and!; try done.
  by apply elementWithId_id in Hel.
Qed.

(** ** [Nav]: the item marked as current *)

Lemma nav_one_current (a : string) :
  a ∈ sections →
  length (List.filter (λ it, bool_decide (Nav_ariaCurrent a it.1 = Some "page")) navItems)
    = 1%nat.
Proof.
  intros Ha. unfold sections in Ha.
  repeat (apply elem_of_cons in Ha as [->|Ha]; [by vm_compute|]).
  by apply elem_of_nil in Ha.
Qed.

(** Whatever events the mounted page has handled (with the observer
    reporting on targets it observes), the active id is a declared section
    and exactly one item of the navigation menu is marked as the current
    page: the one whose id is the active id. *)
Theorem nav_marks_one_item children doc b (evs : list Event) :
  Forall (λ ev, ∀ entries, ev = Intersect entries →
                Forall (λ e, target e ∈ observed (mount doc b)) entries) evs →
  active (run children evs (mount doc b)) ∈ sections ∧
  length (List.filter
            (λ it, bool_decide
                     (Nav_ariaCurrent (active (run children evs (mount doc b))) it.1
                      = Some "page"))
            navItems) = 1%nat ∧
  (∀ it, it ∈ navItems →
     (Nav_ariaCurrent (active (run children evs (mount doc b))) it.1 = Some "page" ↔
      it.1 = active (run children evs (mount doc b)))).
Proof.
  intros Hevs.
  pose proof (active_declared_after_any_events children doc b evs Hevs) as Ha.
  split_and!; [done|by apply nav_one_current|].
  intros it _. unfold Nav_ariaCurrent. case_bool_decide; split; (done || by intros ->).
Qed.

(** ** The modal: more on opening, closing and keys *)

(** Opening always puts focus on the Close button, whatever the children
    hold: the effect remembers the element that had focus, its list is the
    Close button followed by the children that match the selector, in
    document order, and the only calls are that [focus] and the
    registration of the listener. *)
Theorem open_installs_trap children (q : Page) :
  closed q →
  returns (dispatch children ClickTryLiveDemo) q ∧
  openWith {| prev := activeElement q;
              focusable := Some (Modal.closeButton ::
                                 querySelectorAll Modal.focusableSelector children) |}
           (exec (dispatch children ClickTryLiveDemo) q) ∧
  activeElement (exec (dispatch children ClickTryLiveDemo) q) = Some Modal.closeButton ∧
  connected (exec (dispatch children ClickTryLiveDemo) q)
    = connected q ++ Modal.rendered children ∧
  newCalls q (exec (dispatch children ClickTryLiveDemo) q)
    = [Focus Modal.closeButton; AddKeydownListener] ∧
  sameReact (with_fishboneOpen true q) (exec (dispatch children ClickTryLiveDemo) q).
Proof.
  intros Hq. unfold returns, exec, newCalls. rewrite (open_eq children q Hq). cbn.
  split_and!; eauto; try done. apply drop_trace.
Qed.

Lemma filter_rendered (R l : list Element) :
  Forall (λ x, x ∉ R) l →
  List.filter (λ e, negb (bool_decide (e ∈ R))) (l ++ R) = l.
Proof.
  intros Hl. rewrite List.filter_app.
  assert (H1 : List.filter (λ e, negb (bool_decide (e ∈ R))) l = l).
  { induction Hl as [|x l Hx _ IH]; [done|]. cbn.
    rewrite bool_decide_eq_false_2 by done. cbn. by rewrite IH. }
  assert (H2 : ∀ R', Forall (λ x, x ∈ R) R' →
                List.filter (λ e, negb (bool_decide (e ∈ R))) R' = []).
  { induction 1 as [|x l' Hx _ IH]; [done|]. cbn.
    by rewrite bool_decide_eq_true_2. }
  rewrite H1, H2; [by rewrite app_nil_r|]. by apply Forall_forall.
Qed.

(** Opening the modal and closing it again, by the Close button, the
    backdrop or Escape, gives the page back as it was: the same document,
    focus on the element that had it, the same state of every hook; only
    the trace has grown by the five calls made on the way. *)
Theorem open_close_round_trip children (ev : Event) (e : Element) (q : Page) :
  closed q → defaultPrevented q = false →
  activeElement q = Some e → e ∈ connected q → canFocus e = true →
  Forall (λ x, x ∉ Modal.rendered children) (connected q) →
  closes ev →
  run children [ClickTryLiveDemo; ev] q =
    with_trace (trace q ++ [Focus Modal.closeButton; AddKeydownListener;
                            OnClose; RemoveKeydownListener; Focus e]) q.
Proof.
  intros Hq Hd Ha He Hcan Hdoc Hev. cbn [run fold_left].
  unfold exec at 2. rewrite (open_eq children q Hq). cbn [snd].
  unfold exec. erewrite (close_eq children ev _ (opened children q) Hev); [|done].
  destruct Hq as (Ho & Hm & Hr).
  destruct q as [doc b a s fo v er me ob dp rp tr]. cbn in *. subst.
  unfold closedFrom, opened, with_trace. cbn.
  rewrite (filter_rendered _ doc Hdoc).
  rewrite bool_decide_eq_true_2, Hcan by done. cbn. by rewrite <- app_assoc.
Qed.

(** A key other than Escape and Tab is none of the listener's business:
    with the modal open or closed, nothing is called and nothing changes. *)
Theorem other_keys_ignored children (k : string) (shift : bool) (p : Page) :
  k ≠ "Escape" → k ≠ "Tab" → renderPending p = false →
  dispatch children (KeyDown {| key := k; shiftKey := shift |}) p =
    (Normal tt, with_defaultPrevented false p).
Proof.
  intros HE HT Hr. destruct p as [doc b a s fo v er me ob dp rp tr]. cbn in Hr. subst.
  symex. rewrite (bool_decide_eq_false_2 (k = "Tab")) by done.
  destruct me as [t|]; symex; [|done].
  rewrite (bool_decide_eq_false_2 (k = "Escape")) by done. by symex.
Qed.

Lemma nextIndex_back (n i : nat) :
  (i < n)%nat → nextIndex true n (nextIndex false n i) = i.
Proof. intros Hi. unfold nextIndex. repeat case_decide; lia. Qed.

Lemma nextIndex_forth (n i : nat) :
  (i < n)%nat → nextIndex false n (nextIndex true n i) = i.
Proof. intros Hi. unfold nextIndex. repeat case_decide; lia. Qed.

(** In the focus trap Shift+Tab undoes Tab and Tab undoes Shift+Tab: after
    the two presses focus is on the element it was on. *)
Theorem shift_tab_undoes_tab children (t : Trap) (pre l post : list Element)
    (x : Element) (p : Page) :
  openWith t p → focusable t = Some l →
  List.filter tabStop (connected p) = pre ++ l ++ post →
  NoDup (pre ++ l ++ post) →
  Forall (λ e, canFocus e = true) l →
  activeElement p = Some x → x ∈ l →
  activeElement (run children [tabKey false; tabKey true] p) = Some x ∧
  activeElement (run children [tabKey true; tabKey false] p) = Some x.
Proof.
  intros Hp Hf Hord Hnd Hcan Ha Hx.
  apply list_elem_of_lookup_1 in Hx as [i Hi].
  assert (Hlt : (i < length l)%nat) by (eapply lookup_lt_Some; exact Hi).
  assert (Hat : trappedAt t pre l post i p).
  { split; [done|]. split; [done|]. split; [done|]. eauto. }
  cbn [run fold_left]. split.
  - pose proof (tab_step children t pre l post Hnd Hcan true _ _
                  (tab_step children t pre l post Hnd Hcan false _ _ Hat))
      as (_ & _ & _ & y & Hy & ->).
    rewrite nextIndex_back in Hy by done. congruence.
  - pose proof (tab_step children t pre l post Hnd Hcan false _ _
                  (tab_step children t pre l post Hnd Hcan true _ _ Hat))
      as (_ & _ & _ & y & Hy & ->).
    rewrite nextIndex_forth in Hy by done. congruence.
Qed.

(** ** A report of the observer while the modal is open *)

Lemma observerCallback_one (entry : Entry) (q : Page) :
  isIntersecting entry = true →
  exec (observerCallback [entry]) q =
    if bool_decide (active q = idAttr (target entry)) then q
    else with_renderPending true (with_active (idAttr (target entry)) q).
Proof.
  intros Hi. unfold exec, observerCallback. cbn. rewrite Hi. unfold setActive. unfold_m. cbn.
  by case_bool_decide.
Qed.

(** With the modal open, a report of the observer that changes the active
    id makes the page render, and the render runs the cleanup and the effect
    of the modal again: [focus] is called on the element that had focus
    before the modal opened and then on the Close button, which ends up with
    focus wherever in the modal focus was.  A report that names the id that
    already is active changes nothing. *)
Theorem report_refocuses_close_button children (e : Element) (entry : Entry) (p : Page) :
  openWith {| prev := Some e;
              focusable := Some (Modal.closeButton ::
                                 querySelectorAll Modal.focusableSelector children) |} p →
  e ∈ connected p → canFocus e = true →
  Modal.dialog ∈ connected p → Modal.closeButton ∈ connected p →
  isIntersecting entry = true →
  (idAttr (target entry) ≠ active p →
     activeElement (exec (dispatch children (Intersect [entry])) p)
       = Some Modal.closeButton ∧
     active (exec (dispatch children (Intersect [entry])) p) = idAttr (target entry) ∧
     modalEffect (exec (dispatch children (Intersect [entry])) p) = modalEffect p ∧
     newCalls p (exec (dispatch children (Intersect [entry])) p)
       = [RemoveKeydownListener; Focus e; Focus Modal.closeButton; AddKeydownListener]) ∧
  (idAttr (target entry) = active p →
     exec (dispatch children (Intersect [entry])) p = with_defaultPrevented false p).
Proof.
  intros (Ho & Hm & Hr) He Hcan Hd Hc Hi. unfold exec at 1 2 3 4 5.
  rewrite dispatch_intersect_eq, (observerCallback_one entry _ Hi).
  cbn [active with_defaultPrevented]. split; intros Hid.
  - rewrite bool_decide_eq_false_2 by done.
    set (q := with_renderPending true _).
    destruct (render_keeps_effect children e q) as ((_ & Hm' & _) & Ha & Hn); try done.
    destruct (commit_tracker children q) as [Hact _].
    unfold exec in *. rewrite Ha, Hact, Hm', Hm. split_and!; try done.
  - rewrite bool_decide_eq_true_2 by done.
    destruct p as [doc b a s fo v er me ob dp rp tr]. cbn in Hr. subst. by symex.
Qed.

(** ** Instances of the properties above *)

Lemma nav_marks_one_item_witness :
  let evs :=
    [ Intersect [ {| target := pageNode 2 "section" "activities" false;
                     isIntersecting := true |} ];
      ClickTryLiveDemo; tabKey false; escapeKey false;
      Navigate "contact";
      Intersect [ {| target := pageNode 7 "section" "contact" false;
                     isIntersecting := true |} ] ] in
  active (run [fishboneFrame] evs samplePage) = "contact" ∧
  length (List.filter
            (λ it, bool_decide
                     (Nav_ariaCurrent (active (run [fishboneFrame] evs samplePage)) it.1
                      = Some "page"))
            navItems) = 1%nat.
Proof.
  cbn zeta. split; [vm_compute; reflexivity|].
  apply (nav_marks_one_item [fishboneFrame] sampleDocument (Some pageBody)).
  repeat constructor; intros entries [= <-];
    repeat constructor; apply (bool_decide_unpack _); vm_compute; exact I.
Defined.

Lemma navigate_then_report_witness :
  let contact := pageNode 7 "section" "contact" false in
  newCalls samplePage (exec (dispatch [fishboneFrame] (Navigate "contact")) samplePage)
    = [ScrollIntoView contact "smooth" "start"] ∧
  active (run [fishboneFrame]
            [Navigate "contact"; Intersect [{| target := contact; isIntersecting := true |}]]
            samplePage) = "contact".
Proof.
  cbn zeta.
  destruct (navigate_then_report [fishboneFrame] sampleDocument (Some pageBody)
              "contact" (pageNode 7 "section" "contact" false)) as (H1 & _ & _ & H2).
  - apply (bool_decide_unpack _). vm_compute. exact I.
  - vm_compute. reflexivity.
  - split; [exact H1 | exact H2].
Defined.

Lemma open_installs_trap_witness :
  activeElement (exec (dispatch twoButtons ClickTryLiveDemo) focusedPage)
    = Some Modal.closeButton ∧
  modalEffect (exec (dispatch twoButtons ClickTryLiveDemo) focusedPage)
    = Some {| prev := Some demoButton;
              focusable := Some [Modal.closeButton; childButton 1; childButton 2] |}.
Proof.
  destruct (open_installs_trap twoButtons focusedPage) as (_ & (_ & H1 & _) & H2 & _).
  - vm_compute. auto.
  - split; [exact H2 | exact H1].
Defined.

Lemma open_close_round_trip_witness :
  run [fishboneFrame] [ClickTryLiveDemo; ClickBackdrop] focusedPage =
    with_trace (trace focusedPage ++
                [Focus Modal.closeButton; AddKeydownListener;
                 OnClose; RemoveKeydownListener; Focus demoButton]) focusedPage.
Proof.
  apply (open_close_round_trip [fishboneFrame] ClickBackdrop demoButton focusedPage).
  - vm_compute. auto.
  - reflexivity.
  - reflexivity.
  - apply (bool_decide_unpack _). vm_compute. exact I.
  - reflexivity.
  - apply (bool_decide_unpack _). vm_compute. exact I.
  - constructor.
Defined.

Lemma other_keys_ignored_witness :
  dispatch [fishboneFrame] (KeyDown {| key := "Enter"; shiftKey := false |}) openPage =
    (Normal tt, with_defaultPrevented false openPage).
Proof.
  apply (other_keys_ignored [fishboneFrame] "Enter" false openPage).
  - discriminate.
  - discriminate.
  - reflexivity.
Defined.

Lemma shift_tab_undoes_tab_witness :
  activeElement (run twoButtons [tabKey false] buttonsPage) = Some (childButton 1) ∧
  activeElement (run twoButtons [tabKey false; tabKey true] buttonsPage)
    = Some Modal.closeButton ∧
  activeElement (run twoButtons [tabKey true; tabKey false] buttonsPage)
    = Some Modal.closeButton.
Proof.
  split; [vm_compute; reflexivity|].
  apply (shift_tab_undoes_tab twoButtons
           {| prev := Some demoButton;
              focusable := Some [Modal.closeButton; childButton 1; childButton 2] |}
           (List.filter tabStop sampleDocument)
           [Modal.closeButton; childButton 1; childButton 2] []
           Modal.closeButton buttonsPage).
  - vm_compute. auto.
  - reflexivity.
  - vm_compute. reflexivity.
  - apply (bool_decide_unpack _). vm_compute. exact I.
  - repeat constructor.
  - vm_compute. reflexivity.
  - left.
Defined.

Lemma report_refocuses_close_button_witness :
  let entry := {| target := pageNode 2 "section" "activities" false;
                  isIntersecting := true |} in
  let p := with_activeElement (Some (childButton 2)) buttonsPage in
  activeElement p = Some (childButton 2) ∧
  activeElement (exec (dispatch twoButtons (Intersect [entry])) p) = Some Modal.closeButton ∧
  newCalls p (exec (dispatch twoButtons (Intersect [entry])) p)
    = [RemoveKeydownListener; Focus demoButton; Focus Modal.closeButton;
       AddKeydownListener].
Proof.
  cbn zeta. split; [reflexivity|].
  destruct (report_refocuses_close_button twoButtons demoButton
              {| target := pageNode 2 "section" "activities" false; isIntersecting := true |}
              (with_activeElement (Some (childButton 2)) buttonsPage)) as [H _].
  - vm_compute. auto.
  - apply (bool_decide_unpack _). vm_compute. exact I.
  - reflexivity.
  - apply (bool_decide_unpack _). vm_compute. exact I.
  - apply (bool_decide_unpack _). vm_compute. exact I.
  - reflexivity.
  - destruct H as (H1 & _ & _ & H2); [vm_compute; discriminate|]. split; [exact H1|exact H2].
Defined.

(** An address that holds a white-space code unit fails the pattern: the
    submission sets the email error and validation fails, whatever the
    other fields hold. *)
Theorem email_with_space_rejected (p : Page) (c : N) :
  c ∈ email (values p) → isWhiteSpace c = true →
  test emailRx (email (values p)) = false ∧
  (validate p).1 = Normal false ∧
  errors (exec submit p) !! "email" = Some "Enter a valid email.".
Proof.
  intros Hc Hw.
  assert (Ht : test emailRx (email (values p)) = false).
  { apply not_true_is_false. intros Ht.
    rewrite (emailRx_no_space _ c Ht Hc) in Hw. done. }
  destruct (fieldErrors_lookup (values p)) as (_ & He & _).
  rewrite Ht, andb_false_r in He.
  split_and!; [done| |by rewrite submit_errors].
  rewrite validate_eq. cbn. rewrite bool_decide_eq_false_2; [done|].
  intros Hnil. by rewrite Hnil, lookup_empty in He.
Qed.

Lemma email_with_space_rejected_witness :
  let typed := u "ada lovelace@uws.ac.uk" in
  let p := exec (dispatch [fishboneFrame] (Change FEmail typed))
             (with_values validValues samplePage) in
  email (values p) = typed ∧
  test emailRx (u "ada.lovelace@uws.ac.uk") = true ∧
  errors (exec submit p) !! "email" = Some "Enter a valid email.".
Proof.
  cbn zeta. split; [vm_compute; reflexivity|]. split; [vm_compute; reflexivity|].
  apply (email_with_space_rejected
           (exec (dispatch [fishboneFrame] (Change FEmail (u "ada lovelace@uws.ac.uk")))
              (with_values validValues samplePage))
           32%N).
  - apply (bool_decide_unpack _). vm_compute. exact I.
  - vm_compute. reflexivity.
Defined.

(** ** Closing: the element focus goes back to *)

(** A render of the page while the modal is open runs the cleanup of the
    installed effect and then the effect again; the closure of the new run
    holds what had focus once the cleanup had called [focus]. *)
Lemma render_recaptures children (t : Trap) (p : Page) :
  fishboneOpen p = true → modalEffect p = Some t → renderPending p = true →
  ∃ t', openWith t' (exec (commit children) p) ∧ prev t' = recaptured t p.
Proof.
  intros Ho Hm Hr. destruct p as [doc b a s fo v er me ob dp rp tr], t as [pr fc].
  cbn in Ho, Hm, Hr. subst. unfold openWith, recaptured. symex.
  rewrite (bool_decide_eq_true_2 (Some _ = Some _)) by done. symex.
  destruct pr as [x|]; symex;
    [destruct (bool_decide (x ∈ doc)); symex; [destruct (canFocus x); symex|]|];
    (destruct (bool_decide (Modal.dialog ∈ doc)); symex;
     [rewrite selector_dialog; cbn [head]; symex|]); eauto.
Qed.

(** So does a report of the observer that changes the active id. *)
Lemma report_recaptures children (t : Trap) (p : Page) (entry : Entry) :
  openWith t p → isIntersecting entry = true → idAttr (target entry) ≠ active p →
  ∃ t', openWith t' (exec (dispatch children (Intersect [entry])) p) ∧
        prev t' = recaptured t p.
Proof.
  intros (Ho & Hm & Hr) Hi Hid. unfold exec.
  rewrite dispatch_intersect_eq, (observerCallback_one entry _ Hi).
  cbn [active with_defaultPrevented]. rewrite bool_decide_eq_false_2 by done.
  set (q := with_renderPending true _).
  destruct (render_recaptures children t q) as (t' & Ht' & Hprev); [done..|].
  exists t'. split; [exact Ht'|]. rewrite Hprev. reflexivity.
Qed.

(** C1, as the code has it.  When the modal is closed by its Close button,
    by its backdrop or by Escape, the cleanup calls [focus] on the element
    the installed effect recorded when it ran, whether or not that element
    still is in the document.  If it is in the document and can take focus,
    focus is on it afterwards; if it is not, the call has no effect and
    focus stays where the removal of the modal left it.  The effect records
    the element that has focus: when the modal opens, that is the element
    that had focus before; the effect runs again at every render of the page
    while the modal is open, after the cleanup has called [focus] on the
    element recorded before, so the recorded element stays the same as long
    as it is in the document and can take focus at that render, and becomes
    the element then focused otherwise. *)
Theorem close_restores_focus children :
  (∀ q, closed q →
     ∃ t, openWith t (exec (dispatch children ClickTryLiveDemo) q) ∧
          prev t = activeElement q) ∧
  (∀ t p, fishboneOpen p = true → modalEffect p = Some t → renderPending p = true →
     ∃ t', openWith t' (exec (commit children) p) ∧ prev t' = recaptured t p) ∧
  (∀ t p entry,
     openWith t p → isIntersecting entry = true → idAttr (target entry) ≠ active p →
     ∃ t', openWith t' (exec (dispatch children (Intersect [entry])) p) ∧
           prev t' = recaptured t p) ∧
  (∀ ev t p, closes ev → openWith t p →
     returns (dispatch children ev) p ∧
     closed (exec (dispatch children ev) p) ∧
     newCalls p (exec (dispatch children ev) p) =
       [OnClose; RemoveKeydownListener]
         ++ match prev t with Some x => [Focus x] | None => [] end ∧
     (∀ x, prev t = Some x →
        x ∈ connected (exec (dispatch children ev) p) → canFocus x = true →
        activeElement (exec (dispatch children ev) p) = Some x) ∧
     (∀ x, prev t = Some x →
        x ∉ connected (exec (dispatch children ev) p) ∨ canFocus x = false →
        activeElement (exec (dispatch children ev) p) = focusAfterRemoval children p) ∧
     (prev t = None →
        activeElement (exec (dispatch children ev) p) = focusAfterRemoval children p)).
Proof.
  split; [|split; [|split]].
  - intros q Hq. unfold exec. rewrite (open_eq children q Hq). cbn.
    eexists. split; [done|]. reflexivity.
  - apply render_recaptures.
  - apply report_recaptures.
  - intros ev t p Hev Hp. unfold returns, exec, newCalls.
    rewrite (close_eq children ev t p Hev Hp). cbn.
    split; [eauto|]. split; [done|]. split; [apply drop_trace|].
    split; [|split].
    + intros x -> Hx Hc. by rewrite bool_decide_eq_true_2, Hc.
    + intros x -> [Hx|Hc].
      * by rewrite bool_decide_eq_false_2.
      * by rewrite Hc, andb_false_r.
    + by intros ->.
Qed.

Lemma close_restores_focus_witness :
  let p' := exec (dispatch [fishboneFrame] (escapeKey false)) openPage in
  let d := exec (dispatch [fishboneFrame] activitiesReport) detachedPage in
  (prev <$> modalEffect openPage) = Some (Some demoButton) ∧
  activeElement p' = Some demoButton ∧
  (prev <$> modalEffect d) = Some (Some Modal.closeButton) ∧
  newCalls d (exec (dispatch [fishboneFrame] (escapeKey false)) d)
    = [OnClose; RemoveKeydownListener; Focus Modal.closeButton] ∧
  activeElement (exec (dispatch [fishboneFrame] (escapeKey false)) d) = Some pageBody.
Proof.
  cbn zeta.
  destruct (close_restores_focus [fishboneFrame]) as (_ & _ & Hreport & Hclose).
  split; [vm_compute; reflexivity|]. split.
  { destruct (Hclose (escapeKey false)
                {| prev := Some demoButton; focusable := Some [Modal.closeButton] |}
                openPage (closes_escape false))
      as (_ & _ & _ & H & _); [vm_compute; auto|].
    apply (H demoButton); [reflexivity| |reflexivity].
    apply (bool_decide_unpack _). vm_compute. exact I. }
  destruct (Hreport {| prev := Some demoButton; focusable := Some [Modal.closeButton] |}
              detachedPage
              {| target := pageNode 2 "section" "activities" false;
                 isIntersecting := true |})
    as (t' & Ht' & Hprev); [vm_compute; auto|reflexivity|vm_compute; discriminate|].
  assert (Hprev' : prev t' = Some Modal.closeButton).
  { rewrite Hprev. vm_compute. reflexivity. }
  destruct (Hclose (escapeKey false) t' _ (closes_escape false) Ht')
    as (_ & _ & H & _).
  destruct Ht' as (_ & Hm & _).
  unfold activitiesReport. rewrite Hm, H. cbn [fmap option_fmap option_map].
  rewrite Hprev'.
  split; [reflexivity|]. split; [reflexivity|]. vm_compute. reflexivity.
Defined.
